(** * recorder.js: microphone recording, live visualiser bars and playback

    A shallow embedding of [src/recorder.js].  The module-level variables of
    the script, the part of the document it touches and the browser objects it
    drives (media streams, RecordRTC recorders, audio contexts, scheduled
    animation frames, audio elements, object URLs) form one explicit [World].
    Every JavaScript function is a computation in a state-and-exception monad
    over that world.  The two suspension points of [Recorder.toggle] (the
    [await] on [getUserMedia] and the callback handed to [stopRecording]) split
    it into a call part and continuations that the browser runs later; the
    browser and the user are a labelled step function [step] over [Event]s. *)

From Stdlib Require Import Floats ZArith Lia Strings.Byte.
From stdpp Require Import base tactics option list strings.

Local Open Scope float_scope.
Local Open Scope nat_scope.

(** ** Data *)

(** [state]: 'idle' | 'recording' | 'done'. *)
Inductive RecState : Set := idle | recording | done.

#[global] Instance RecState_eq_dec : EqDecision RecState.
Proof. solve_decision. Defined.

(** A [Blob] as far as the script reads it: [blob.size] and [blob.type]. *)
Record Blob : Set := mkBlob { blob_size : N; blob_type : string }.

(** [MediaStreamTrack.readyState]. *)
Inductive TrackState : Set := live | ended.

(** A RecordRTC instance: the stream handed to its constructor and whether
    [startRecording] has put it in the recording state. *)
Record RecordRTCObj : Set := mkRTC { rtc_stream : nat; rtc_recording : bool }.

(** An [AudioContext]. *)
Record AudioContextObj : Set := mkCtx { ctx_closed : bool }.

(** An [AnalyserNode]: its context, its [fftSize] and the stream of the
    [MediaStreamAudioSourceNode] connected to it, if any. *)
Record AnalyserObj : Set :=
  mkAnalyser { an_ctx : nat; an_fftSize : nat; an_input : option nat }.

(** The variables the closure [draw] captures in [startVisualiser]:
    [dataArray] (a [Uint8Array], by its length) and [count]. *)
Record DrawClosure : Set := mkDraw { dataLength : nat; count : nat }.

(** An [HTMLAudioElement]: the object URL it plays, [paused], [currentTime]
    (a JavaScript number, in seconds) and the URL captured by its [onended]
    handler when one is installed. *)
Record AudioObj : Set :=
  mkAudio { au_src : nat; au_paused : bool; au_time : float; au_onended : option nat }.

(** An object URL made by [URL.createObjectURL]: the blob behind it and
    whether it has not been revoked yet. *)
Record ObjectURL : Set := mkURL { url_blob : Blob; url_live : bool }.

(** What the user or the embedding page can observe. *)
Inductive Effect : Set :=
| ConsoleLogBlobReady (size : N) (type : string)
    (* console.log('Recorder: blob ready, size=' + blob.size + ' type=' + blob.type) *)
| ConsoleError (msg : string)
| Alert (msg : string)
| StateChange (callback : nat) (s : RecState).
    (* window.Recorder.onStateChange(s), with the callback installed then *)

Inductive JsError : Set := TypeError (what : string).

(** The module-level variables of the script.  [refs_bound] says whether
    [init] has run, that is whether [micBtn], [micLabel], [recWrapper],
    [recDone] and [playBtn] hold their elements and [bars] the node list of
    the [.rec-bar] elements; before that the five are [undefined] and [bars]
    is the empty array. *)
Record Vars : Type := mkVars {
  refs_bound : bool;
  recordRTC : option nat;
  stream : option nat;
  audioCtx : option nat;
  analyser : option nat;
  animFrame : option nat;
  blob : option Blob;
  state : RecState;
  audioEl : option nat
}.

(** The elements of the document the script writes to. *)
Record Dom : Type := mkDom {
  micBtn_recording : bool;        (* micBtn.classList contains 'recording' *)
  micLabel_text : string;         (* micLabel.textContent *)
  recWrapper_visible : bool;      (* recWrapper.classList contains 'visible' *)
  recDone_display : string;       (* recDone.style.display *)
  playBtn_text : string;          (* playBtn.textContent *)
  bar_heights : list float        (* the px last given to style.height of each .rec-bar *)
}.

(** The browser objects, by identifier (the index in their store), and the
    continuations of the script the browser still owes a call. *)
Record Host : Type := mkHost {
  streams : list (list TrackState);   (* the tracks of each MediaStream *)
  recorders : list RecordRTCObj;
  contexts : list AudioContextObj;
  analysers : list AnalyserObj;
  frames : list (nat * DrawClosure);  (* requestAnimationFrame callbacks not run yet *)
  lastFrame : nat;                    (* the last identifier requestAnimationFrame gave out *)
  audios : list AudioObj;
  urls : list ObjectURL;
  pendingMic : nat;                   (* toggle() calls suspended at await getUserMedia *)
  pendingStops : list nat             (* recorders holding a stop callback to call *)
}.

Record World : Type := mkWorld {
  vars : Vars;
  onStateChange : option nat;         (* window.Recorder.onStateChange *)
  dom : Dom;
  host : Host;
  effects : list Effect               (* oldest first *)
}.

(** ** Field updates *)

Definition set_refs_bound (x : bool) (v : Vars) : Vars :=
  mkVars x (recordRTC v) (stream v) (audioCtx v) (analyser v) (animFrame v) (blob v) (state v) (audioEl v).
Definition set_recordRTC (x : option nat) (v : Vars) : Vars :=
  mkVars (refs_bound v) x (stream v) (audioCtx v) (analyser v) (animFrame v) (blob v) (state v) (audioEl v).
Definition set_stream (x : option nat) (v : Vars) : Vars :=
  mkVars (refs_bound v) (recordRTC v) x (audioCtx v) (analyser v) (animFrame v) (blob v) (state v) (audioEl v).
Definition set_audioCtx (x : option nat) (v : Vars) : Vars :=
  mkVars (refs_bound v) (recordRTC v) (stream v) x (analyser v) (animFrame v) (blob v) (state v) (audioEl v).
Definition set_analyser (x : option nat) (v : Vars) : Vars :=
  mkVars (refs_bound v) (recordRTC v) (stream v) (audioCtx v) x (animFrame v) (blob v) (state v) (audioEl v).
Definition set_animFrame (x : option nat) (v : Vars) : Vars :=
  mkVars (refs_bound v) (recordRTC v) (stream v) (audioCtx v) (analyser v) x (blob v) (state v) (audioEl v).
Definition set_blob (x : option Blob) (v : Vars) : Vars :=
  mkVars (refs_bound v) (recordRTC v) (stream v) (audioCtx v) (analyser v) (animFrame v) x (state v) (audioEl v).
Definition set_state (x : RecState) (v : Vars) : Vars :=
  mkVars (refs_bound v) (recordRTC v) (stream v) (audioCtx v) (analyser v) (animFrame v) (blob v) x (audioEl v).
Definition set_audioEl (x : option nat) (v : Vars) : Vars :=
  mkVars (refs_bound v) (recordRTC v) (stream v) (audioCtx v) (analyser v) (animFrame v) (blob v) (state v) x.

Definition set_micBtn_recording (x : bool) (d : Dom) : Dom :=
  mkDom x (micLabel_text d) (recWrapper_visible d) (recDone_display d) (playBtn_text d) (bar_heights d).
Definition set_micLabel_text (x : string) (d : Dom) : Dom :=
  mkDom (micBtn_recording d) x (recWrapper_visible d) (recDone_display d) (playBtn_text d) (bar_heights d).
Definition set_recWrapper_visible (x : bool) (d : Dom) : Dom :=
  mkDom (micBtn_recording d) (micLabel_text d) x (recDone_display d) (playBtn_text d) (bar_heights d).
Definition set_recDone_display (x : string) (d : Dom) : Dom :=
  mkDom (micBtn_recording d) (micLabel_text d) (recWrapper_visible d) x (playBtn_text d) (bar_heights d).
Definition set_playBtn_text (x : string) (d : Dom) : Dom :=
  mkDom (micBtn_recording d) (micLabel_text d) (recWrapper_visible d) (recDone_display d) x (bar_heights d).
Definition set_bar_heights (x : list float) (d : Dom) : Dom :=
  mkDom (micBtn_recording d) (micLabel_text d) (recWrapper_visible d) (recDone_display d) (playBtn_text d) x.

Definition set_streams (x : list (list TrackState)) (h : Host) : Host :=
  mkHost x (recorders h) (contexts h) (analysers h) (frames h) (lastFrame h) (audios h) (urls h)
         (pendingMic h) (pendingStops h).
Definition set_recorders (x : list RecordRTCObj) (h : Host) : Host :=
  mkHost (streams h) x (contexts h) (analysers h) (frames h) (lastFrame h) (audios h) (urls h)
         (pendingMic h) (pendingStops h).
Definition set_contexts (x : list AudioContextObj) (h : Host) : Host :=
  mkHost (streams h) (recorders h) x (analysers h) (frames h) (lastFrame h) (audios h) (urls h)
         (pendingMic h) (pendingStops h).
Definition set_analysers (x : list AnalyserObj) (h : Host) : Host :=
  mkHost (streams h) (recorders h) (contexts h) x (frames h) (lastFrame h) (audios h) (urls h)
         (pendingMic h) (pendingStops h).
Definition set_frames (x : list (nat * DrawClosure)) (h : Host) : Host :=
  mkHost (streams h) (recorders h) (contexts h) (analysers h) x (lastFrame h) (audios h) (urls h)
         (pendingMic h) (pendingStops h).
Definition set_lastFrame (x : nat) (h : Host) : Host :=
  mkHost (streams h) (recorders h) (contexts h) (analysers h) (frames h) x (audios h) (urls h)
         (pendingMic h) (pendingStops h).
Definition set_audios (x : list AudioObj) (h : Host) : Host :=
  mkHost (streams h) (recorders h) (contexts h) (analysers h) (frames h) (lastFrame h) x (urls h)
         (pendingMic h) (pendingStops h).
Definition set_urls (x : list ObjectURL) (h : Host) : Host :=
  mkHost (streams h) (recorders h) (contexts h) (analysers h) (frames h) (lastFrame h) (audios h) x
         (pendingMic h) (pendingStops h).
Definition set_pendingMic (x : nat) (h : Host) : Host :=
  mkHost (streams h) (recorders h) (contexts h) (analysers h) (frames h) (lastFrame h) (audios h) (urls h)
         x (pendingStops h).
Definition set_pendingStops (x : list nat) (h : Host) : Host :=
  mkHost (streams h) (recorders h) (contexts h) (analysers h) (frames h) (lastFrame h) (audios h) (urls h)
         (pendingMic h) x.

Definition on_vars (f : Vars → Vars) (w : World) : World :=
  mkWorld (f (vars w)) (onStateChange w) (dom w) (host w) (effects w).
Definition on_dom (f : Dom → Dom) (w : World) : World :=
  mkWorld (vars w) (onStateChange w) (f (dom w)) (host w) (effects w).
Definition on_host (f : Host → Host) (w : World) : World :=
  mkWorld (vars w) (onStateChange w) (dom w) (f (host w)) (effects w).
Definition set_onStateChange (x : option nat) (w : World) : World :=
  mkWorld (vars w) x (dom w) (host w) (effects w).
Definition emit (e : Effect) (w : World) : World :=
  mkWorld (vars w) (onStateChange w) (dom w) (host w) (effects w ++ [e]).

(** ** The monad of script code: a world and a completion *)

Inductive Completion (A : Type) : Type :=
| Normal (a : A)
| Throw (e : JsError).
Arguments Normal {A} a.
Arguments Throw {A} e.

Definition Js (A : Type) : Type := World → Completion A * World.

Definition ret {A} (a : A) : Js A := λ w, (Normal a, w).
Definition throw {A} (e : JsError) : Js A := λ w, (Throw e, w).
Definition bind {A B} (m : Js A) (k : A → Js B) : Js B :=
  λ w, match m w with
       | (Normal a, w') => k a w'
       | (Throw e, w') => (Throw e, w')
       end.
Definition gets {A} (f : World → A) : Js A := λ w, (Normal (f w), w).
Definition modify (f : World → World) : Js unit := λ w, (Normal tt, f w).

Declare Scope js_scope.
Delimit Scope js_scope with js.
Notation "x <- m ;; k" := (bind m (λ x, k))
  (at level 100, m at next level, k at level 200, only parsing, right associativity) : js_scope.
Notation "m ;; k" := (bind m (λ _, k))
  (at level 100, k at level 200, only parsing, right associativity) : js_scope.
Local Open Scope js_scope.

(** The world a computation leaves behind, and how it completed. *)
Definition exec {A} (m : Js A) (w : World) : World := snd (m w).
Definition completion {A} (m : Js A) (w : World) : Completion A := fst (m w).

(** [for (let i = 0; i < n; i++) body(i)], by the list of indices, and
    [xs.forEach(body)]. *)
Fixpoint for_each {A} (xs : list A) (body : A → Js unit) : Js unit :=
  match xs with
  | [] => ret tt
  | x :: xs' => body x ;; for_each xs' body
  end.

(** ** Browser primitives the script calls *)

(** [navigator.mediaDevices.getUserMedia({ audio: true })]: the request is
    pending until the browser grants or denies it. *)
Definition getUserMedia : Js unit :=
  modify (on_host (λ h, set_pendingMic (S (pendingMic h)) h)).

(** [t.stop()] for every track of stream [s]. *)
Definition stop_tracks (s : nat) : Js unit :=
  modify (on_host (λ h, set_streams (alter (fmap (λ _, ended)) s (streams h)) h)).

(** [new RecordRTC(stream, { type: 'audio' })]. *)
Definition new_RecordRTC (s : nat) : Js nat :=
  r <- gets (λ w, length (recorders (host w))) ;;
  modify (on_host (λ h, set_recorders (recorders h ++ [mkRTC s false]) h)) ;;
  ret r.

Definition set_rtc_recording (b : bool) (r : RecordRTCObj) : RecordRTCObj :=
  mkRTC (rtc_stream r) b.

(** [r.startRecording()]. *)
Definition startRecording (r : nat) : Js unit :=
  modify (on_host (λ h, set_recorders (alter (set_rtc_recording true) r (recorders h)) h)).

(** [recordRTC.stopRecording(callback)], [recordRTC] being the value of the
    variable: the recorder stops and keeps the callback, which it calls once,
    when the blob is assembled.  A recorder has room for one callback: one
    handed over while it still holds another takes that one's place.  Every
    callback the script hands over is the same function over the same
    variables, so all there is to record is which recorders hold one. *)
Definition stopRecording (r : option nat) : Js unit :=
  match r with
  | None => throw (TypeError "recordRTC is null")
  | Some r =>
      modify (on_host (λ h,
        set_pendingStops
          (if decide (r ∈ pendingStops h) then pendingStops h else pendingStops h ++ [r])
          (set_recorders (alter (set_rtc_recording false) r (recorders h)) h)))
  end.

(** [new (window.AudioContext || window.webkitAudioContext)()]. *)
Definition new_AudioContext : Js nat :=
  c <- gets (λ w, length (contexts (host w))) ;;
  modify (on_host (λ h, set_contexts (contexts h ++ [mkCtx false]) h)) ;;
  ret c.

(** [audioCtx.close()]. *)
Definition close_context (c : nat) : Js unit :=
  modify (on_host (λ h, set_contexts (alter (λ _, mkCtx true) c (contexts h)) h)).

(** [audioCtx.createMediaStreamSource(stream)]: the source node is only ever
    connected, so it is the stream it reads. *)
Definition createMediaStreamSource (s : option nat) : Js nat :=
  match s with
  | None => throw (TypeError "createMediaStreamSource: parameter 1 is not of type 'MediaStream'")
  | Some s => ret s
  end.

(** [audioCtx.createAnalyser()]; a new analyser has [fftSize] 2048. *)
Definition createAnalyser (c : nat) : Js nat :=
  a <- gets (λ w, length (analysers (host w))) ;;
  modify (on_host (λ h, set_analysers (analysers h ++ [mkAnalyser c 2048 None]) h)) ;;
  ret a.

Definition on_analyser (f : AnalyserObj → AnalyserObj) (a : nat) : Js unit :=
  modify (on_host (λ h, set_analysers (alter f a (analysers h)) h)).

(** [a.fftSize = n] and [source.connect(a)]. *)
Definition set_fftSize (n : nat) : nat → Js unit :=
  on_analyser (λ o, mkAnalyser (an_ctx o) n (an_input o)).
Definition connect (source : nat) : nat → Js unit :=
  on_analyser (λ o, mkAnalyser (an_ctx o) (an_fftSize o) (Some source)).

(** [a.frequencyBinCount]: half of [fftSize]. *)
Definition frequencyBinCount (a : nat) : Js nat :=
  o <- gets (λ w, analysers (host w) !! a) ;;
  match o with
  | None => throw (TypeError "analyser is not an AnalyserNode")
  | Some n => ret (an_fftSize n / 2)
  end.

(** [requestAnimationFrame(draw)]: identifiers count up from 1. *)
Definition requestAnimationFrame (c : DrawClosure) : Js nat :=
  id <- gets (λ w, S (lastFrame (host w))) ;;
  modify (on_host (λ h, set_lastFrame id (set_frames (frames h ++ [(id, c)]) h))) ;;
  ret id.

(** [cancelAnimationFrame(id)]. *)
Definition cancelAnimationFrame (id : nat) : Js unit :=
  modify (on_host (λ h, set_frames (filter (λ f, f.1 ≠ id) (frames h)) h)).

(** [URL.createObjectURL(blob)] and [URL.revokeObjectURL(url)]. *)
Definition createObjectURL (b : Blob) : Js nat :=
  u <- gets (λ w, length (urls (host w))) ;;
  modify (on_host (λ h, set_urls (urls h ++ [mkURL b true]) h)) ;;
  ret u.

Definition revokeObjectURL (u : nat) : Js unit :=
  modify (on_host (λ h, set_urls (alter (λ o, mkURL (url_blob o) false) u (urls h)) h)).

(** [new Audio(url)]: a fresh element is paused at position 0. *)
Definition new_Audio (u : nat) : Js nat :=
  e <- gets (λ w, length (audios (host w))) ;;
  modify (on_host (λ h, set_audios (audios h ++ [mkAudio u true 0%float None]) h)) ;;
  ret e.

(** Reading a property of the element [audioEl] points to. *)
Definition audio_prop {A} (f : AudioObj → A) (e : nat) : Js A :=
  o <- gets (λ w, audios (host w) !! e) ;;
  match o with
  | None => throw (TypeError "audioEl is not an HTMLAudioElement")
  | Some a => ret (f a)
  end.

Definition on_audio (f : AudioObj → AudioObj) (e : nat) : Js unit :=
  modify (on_host (λ h, set_audios (alter f e (audios h)) h)).

(** [audioEl.pause()], [audioEl.play()] and [audioEl.onended = handler]. *)
Definition audio_pause : nat → Js unit :=
  on_audio (λ a, mkAudio (au_src a) true (au_time a) (au_onended a)).
Definition audio_play : nat → Js unit :=
  on_audio (λ a, mkAudio (au_src a) false (au_time a) (au_onended a)).
Definition audio_set_onended (u : nat) : nat → Js unit :=
  on_audio (λ a, mkAudio (au_src a) (au_paused a) (au_time a) (Some u)).

Definition alert (msg : string) : Js unit := modify (emit (Alert msg)).

(** ** Truthiness and number conversion *)

(** [if (animFrame)]: [null] and the number 0 are falsy. *)
Definition truthy_id (x : option nat) : bool :=
  match x with
  | Some (S _) => true
  | _ => false
  end.

(** An element of a [Uint8Array] as a JavaScript number. *)
Definition byte_to_number (b : byte) : float :=
  PrimFloat.of_uint63 (Uint63.of_Z (Z.of_N (Byte.to_N b))).

(** [dataArray[bin]] used as a number: an index outside the array reads
    [undefined], which arithmetic turns into NaN. *)
Definition to_number (v : option byte) : float :=
  match v with
  | Some b => byte_to_number b
  | None => PrimFloat.nan
  end.

(** ** The script *)

(** [init()]: binds the element references and [bars].  The page is taken to
    hold the five elements. *)
Definition init : Js unit := modify (on_vars (set_refs_bound true)).

(** [bars.length]. *)
Definition bars_length : Js nat :=
  gets (λ w, if refs_bound (vars w) then length (bar_heights (dom w)) else 0).

(** [bars[i].style.height = h + 'px']. *)
Definition set_bar_height (i : nat) (h : float) : Js unit :=
  n <- bars_length ;;
  if decide (i < n)
  then modify (on_dom (λ d, set_bar_heights (<[i := h]> (bar_heights d)) d))
  else throw (TypeError "bars[i] is undefined").

(** [playBtn.textContent = text]. *)
Definition set_playBtn (text : string) : Js unit :=
  bound <- gets (λ w, refs_bound (vars w)) ;;
  if bound then modify (on_dom (set_playBtn_text text))
  else throw (TypeError "playBtn is undefined").

(** The height [draw] gives a bar whose bin reads [value]. *)
Definition bar_height (value : float) : float := (4 + (value / 255) * 48)%float.

(** [draw()], the closure made by [startVisualiser]; [data] is what
    [analyser.getByteFrequencyData(dataArray)] has written into [dataArray].
    The quotient [i * dataArray.length / count] is taken on naturals:
    [Math.floor] of the floating-point quotient is the same number as long as
    the product stays far below 2^53. *)
Definition draw (c : DrawClosure) (data : list byte) : Js unit :=
  a <- gets (λ w, analyser (vars w)) ;;
  match a with
  | None => throw (TypeError "analyser is null")
  | Some _ =>
      for_each (seq 0 (count c)) (λ i,
        let bin := i * dataLength c / count c in
        let value := to_number (data !! bin) in
        set_bar_height i (bar_height value)) ;;
      id <- requestAnimationFrame c ;;
      modify (on_vars (set_animFrame (Some id)))
  end.

(** [startVisualiser()]; [data] is the snapshot its first [draw()] reads. *)
Definition startVisualiser (data : list byte) : Js unit :=
  c <- new_AudioContext ;;
  modify (on_vars (set_audioCtx (Some c))) ;;
  s <- gets (λ w, stream (vars w)) ;;
  source <- createMediaStreamSource s ;;
  a <- createAnalyser c ;;
  modify (on_vars (set_analyser (Some a))) ;;
  set_fftSize 256 a ;;
  connect source a ;;
  bins <- frequencyBinCount a ;;
  n <- bars_length ;;
  draw (mkDraw bins n) data.

(** [stopVisualiser()]. *)
Definition stopVisualiser : Js unit :=
  f <- gets (λ w, animFrame (vars w)) ;;
  (if truthy_id f then cancelAnimationFrame (default 0 f) else ret tt) ;;
  c <- gets (λ w, audioCtx (vars w)) ;;
  match c with Some c => close_context c | None => ret tt end ;;
  modify (on_vars (set_animFrame None)) ;;
  modify (on_vars (set_audioCtx None)) ;;
  modify (on_vars (set_analyser None)) ;;
  n <- bars_length ;;
  for_each (seq 0 n) (λ i, set_bar_height i 4%float).

(** [setUI(s)]. *)
Definition setUI (s : RecState) : Js unit :=
  bound <- gets (λ w, refs_bound (vars w)) ;;
  if bound then
    match s with
    | recording =>
        modify (on_dom (set_micBtn_recording true)) ;;
        modify (on_dom (set_micLabel_text "Arrêter l'enregistrement")) ;;
        modify (on_dom (set_recWrapper_visible true)) ;;
        modify (on_dom (set_recDone_display "none"))
    | done =>
        modify (on_dom (set_micBtn_recording false)) ;;
        modify (on_dom (set_micLabel_text "Reenregistrer")) ;;
        modify (on_dom (set_recWrapper_visible false)) ;;
        modify (on_dom (set_recDone_display "flex"))
    | idle =>
        modify (on_dom (set_micBtn_recording false)) ;;
        modify (on_dom (set_micLabel_text "Enregistrer un message vocal")) ;;
        modify (on_dom (set_recWrapper_visible false)) ;;
        modify (on_dom (set_recDone_display "none"))
    end
  else throw (TypeError "micBtn is undefined").

(** [if (window.Recorder.onStateChange) window.Recorder.onStateChange(s)]. *)
Definition notify (s : RecState) : Js unit :=
  cb <- gets onStateChange ;;
  match cb with
  | Some cb => modify (emit (StateChange cb s))
  | None => ret tt
  end.

(** Lines 106-107 of the stop callback, the release of the microphone:
    [if (stream) stream.getTracks().forEach(t => t.stop()); stream = null]. *)
Definition release_stream : Js unit :=
  s <- gets (λ w, stream (vars w)) ;;
  match s with Some s => stop_tracks s | None => ret tt end ;;
  modify (on_vars (set_stream None)).

(** [Recorder.toggle()] up to its suspension: in state 'recording' it hands
    the stop callback to [stopRecording] and returns; otherwise it awaits
    [getUserMedia]. *)
Definition toggle : Js unit :=
  bound <- gets (λ w, refs_bound (vars w)) ;;
  (if bound then ret tt else init) ;;
  st <- gets (λ w, state (vars w)) ;;
  match st with
  | recording =>
      r <- gets (λ w, recordRTC (vars w)) ;;
      stopRecording r
  | _ => getUserMedia
  end.

(** The callback given to [stopRecording]; [b] is the blob
    [recordRTC.getBlob()] returns when RecordRTC calls it, which it does once
    the blob is ready. *)
Definition stop_callback (b : Blob) : Js unit :=
  r <- gets (λ w, recordRTC (vars w)) ;;
  match r with
  | None => throw (TypeError "recordRTC is null")
  | Some _ => modify (on_vars (set_blob (Some b)))
  end ;;
  modify (emit (ConsoleLogBlobReady (blob_size b) (blob_type b))) ;;
  release_stream ;;
  stopVisualiser ;;
  modify (on_vars (set_state done)) ;;
  setUI done ;;
  notify done.

(** [Recorder.toggle()] resumed after [await getUserMedia] resolved with the
    stream [s]; [data] is the snapshot the first [draw()] reads. *)
Definition toggle_granted (s : nat) (data : list byte) : Js unit :=
  modify (on_vars (set_stream (Some s))) ;;
  r <- new_RecordRTC s ;;
  modify (on_vars (set_recordRTC (Some r))) ;;
  startRecording r ;;
  startVisualiser data ;;
  modify (on_vars (set_state recording)) ;;
  setUI recording ;;
  notify recording.

(** [Recorder.toggle()] resumed in its [catch] after [getUserMedia] rejected. *)
Definition toggle_denied : Js unit :=
  modify (emit (ConsoleError "Mic access denied")) ;;
  alert "Impossible d'accéder au microphone. Veuillez vérifier vos paramètres.".

(** The [onended] handler of the element made by a fresh play; [u] is the
    [url] it captured. *)
Definition onended (u : nat) : Js unit :=
  set_playBtn "▶" ;;
  revokeObjectURL u ;;
  modify (on_vars (set_audioEl None)).

(** The last branch of [Recorder.play()], the fresh play of blob [b]. *)
Definition fresh_play (b : Blob) : Js unit :=
  url <- createObjectURL b ;;
  e <- new_Audio url ;;
  modify (on_vars (set_audioEl (Some e))) ;;
  audio_set_onended url e ;;
  audio_play e ;;
  set_playBtn "⏸".

(** [Recorder.play()]. *)
Definition play : Js unit :=
  b <- gets (λ w, blob (vars w)) ;;
  match b with
  | None => alert "Aucun enregistrement trouvé."
  | Some b =>
      if (blob_size b =? 0)%N then alert "Aucun enregistrement trouvé."
      else
        el <- gets (λ w, audioEl (vars w)) ;;
        match el with
        | None => fresh_play b
        | Some e =>
            paused <- audio_prop au_paused e ;;
            if negb paused then
              (* already playing: pause *)
              audio_pause e ;;
              set_playBtn "▶"
            else
              time <- audio_prop au_time e ;;
              if PrimFloat.ltb 0 time then
                (* paused mid-play: resume *)
                audio_play e ;;
                set_playBtn "⏸"
              else fresh_play b
        end
  end.

(** [Recorder.getBlob()]. *)
Definition getBlob (w : World) : option Blob := blob (vars w).

(** ** The browser and the user *)

(** What can happen to the page: calls into the public API and the callbacks
    the browser makes into the script. *)
Inductive Event : Type :=
| DOMContentLoaded
    (* the auto-init at the end of the script, at once or on the event *)
| SetOnStateChange (cb : option nat)
    (* the page assigns Recorder.onStateChange *)
| CallToggle
| CallPlay
| MicGranted (tracks : nat) (data : list byte)
    (* getUserMedia resolves with a stream of [tracks] live tracks *)
| MicDenied
    (* getUserMedia rejects *)
| EncoderStopped (b : Blob)
    (* the recorder that has held its stop callback longest calls it *)
| AnimationFrame (id : nat) (data : list byte)
    (* the scheduled frame [id] runs *)
| AudioProgress (e : nat) (t : float)
    (* element [e], playing, now reports position [t] *)
| AudioEnded (e : nat).
    (* element [e] has reached the end of its clip *)

(** The size of the [Uint8Array] [startVisualiser] allocates: the
    [frequencyBinCount] of an analyser whose [fftSize] is 256. *)
Definition binCount : nat := 256 / 2.

(** One event; [None] when the browser cannot produce it in this world.  An
    exception thrown by the script ends the handler and leaves the world as
    it was at the throw.  A granted microphone is a new stream; a frame is
    taken off the schedule before its callback runs; the continuations of
    [toggle] all close over the same variables, so which of the pending ones
    the browser resumes makes no difference; an element that reaches the end
    of its clip is paused by the browser, which then fires [ended]. *)
Definition step (ev : Event) (w : World) : option World :=
  match ev with
  | DOMContentLoaded => Some (exec init w)
  | SetOnStateChange cb => Some (set_onStateChange cb w)
  | CallToggle => Some (exec toggle w)
  | CallPlay => Some (exec play w)
  | MicGranted tracks data =>
      match pendingMic (host w) with
      | S n =>
          if decide (length data = binCount) then
            let s := length (streams (host w)) in
            let w' := on_host (λ h, set_streams (streams h ++ [replicate tracks live])
                                      (set_pendingMic n h)) w in
            Some (exec (toggle_granted s data) w')
          else None
      | 0 => None
      end
  | MicDenied =>
      match pendingMic (host w) with
      | S n => Some (exec toggle_denied (on_host (set_pendingMic n) w))
      | 0 => None
      end
  | EncoderStopped b =>
      match pendingStops (host w) with
      | _ :: rest => Some (exec (stop_callback b) (on_host (set_pendingStops rest) w))
      | [] => None
      end
  | AnimationFrame id data =>
      match list_find (λ f, f.1 = id) (frames (host w)) with
      | Some (_, (_, c)) =>
          if decide (length data = dataLength c) then
            Some (exec (draw c data) (exec (cancelAnimationFrame id) w))
          else None
      | None => None
      end
  | AudioProgress e t =>
      match audios (host w) !! e with
      | Some a =>
          if au_paused a then None
          else Some (exec (on_audio (λ a, mkAudio (au_src a) (au_paused a) t (au_onended a)) e) w)
      | None => None
      end
  | AudioEnded e =>
      match audios (host w) !! e with
      | Some a =>
          if au_paused a then None
          else
            let w' := exec (audio_pause e) w in
            match au_onended a with
            | Some u => Some (exec (onended u) w')
            | None => Some w'
            end
      | None => None
      end
  end.

(** A run of events, oldest first. *)
Fixpoint run (evs : list Event) (w : World) : option World :=
  match evs with
  | [] => Some w
  | ev :: evs' =>
      match step ev w with
      | Some w' => run evs' w'
      | None => None
      end
  end.

(** The world when the script has been evaluated, in a document [d]. *)
Definition initial (d : Dom) : World :=
  mkWorld (mkVars false None None None None None None idle None) None d
          (mkHost [] [] [] [] [] 0 [] [] 0 []) [].

(** The worlds the page can be in. *)
Inductive reachable : World → Prop :=
| reachable_initial d : reachable (initial d)
| reachable_step ev w w' : reachable w → step ev w = Some w' → reachable w'.

(** ** Observations *)

(** The state of playback: stopped when there is no element, else by the
    element's [paused]. *)
Inductive Playback : Set := stopped | playing | paused.

Definition playback (w : World) : Playback :=
  match audioEl (vars w) with
  | None => stopped
  | Some e =>
      match audios (host w) !! e with
      | Some a => if au_paused a then paused else playing
      | None => stopped
      end
  end.

(** The position of the current playback element. *)
Definition position (w : World) : option float :=
  e ← audioEl (vars w); au_time <$> audios (host w) !! e.

(** The calls of [onStateChange] among some effects. *)
Definition notifications (es : list Effect) : list RecState :=
  omap (λ e, match e with StateChange _ s => Some s | _ => None end) es.

(** All tracks of stream [s] have been stopped. *)
Definition released (s : nat) (w : World) : Prop :=
  ∃ ts, streams (host w) !! s = Some ts ∧ Forall (λ t, t = ended) ts.

(** Frame [id] is still scheduled. *)
Definition scheduled (id : nat) (w : World) : Prop :=
  id ∈ (frames (host w)).*1.

(** ** Closed forms and predicates used by the proofs *)

(** A loop that writes [h i] into bar [i], for the indices [idx]. *)
Definition paint (h : nat → float) (idx : list nat) (hs : list float) : list float :=
  foldl (λ hs i, <[i := h i]> hs) hs idx.

(** Every value a [Uint8Array] can hold. *)
Definition all_bytes : list byte :=
  (λ n, default x00 (Byte.of_N (N.of_nat n))) <$> seq 0 256.

Definition height_in_range (b : byte) : bool :=
  (PrimFloat.leb 4 (bar_height (byte_to_number b)) &&
   PrimFloat.leb (bar_height (byte_to_number b)) 52)%float.

Definition height_monotone (b1 b2 : byte) : bool :=
  implb (Byte.to_N b1 <=? Byte.to_N b2)%N
        (PrimFloat.leb (bar_height (byte_to_number b1)) (bar_height (byte_to_number b2))).

(** [stopVisualiser] in closed form, once the references are bound. *)
Definition visualiser_stopped (w : World) : World :=
  on_dom (λ d, set_bar_heights
                 (paint (λ _, 4%float) (seq 0 (length (bar_heights d))) (bar_heights d)) d)
    (on_vars (λ v, set_analyser None (set_audioCtx None (set_animFrame None v)))
       (on_host (λ h,
          set_contexts
            (match audioCtx (vars w) with
             | Some c => alter (λ _, mkCtx true) c (contexts h)
             | None => contexts h
             end)
            (set_frames
               (if truthy_id (animFrame (vars w))
                then filter (λ f, f.1 ≠ default 0 (animFrame (vars w))) (frames h)
                else frames h) h)) w)).

(** [startVisualiser] in closed form: a new context and an analyser with
    [fftSize] 256 fed by the stream in [stream], then the first [draw] over
    [binCount] bins and all the bars. *)
Definition visualiser_started (s : nat) (data : list byte) (w : World) : World :=
  let c := length (contexts (host w)) in
  let a := length (analysers (host w)) in
  exec (draw (mkDraw binCount (length (bar_heights (dom w)))) data)
    (on_vars (λ v, set_analyser (Some a) (set_audioCtx (Some c) v))
       (on_host (λ h, set_analysers (analysers h ++ [mkAnalyser c 256 (Some s)])
                        (set_contexts (contexts h ++ [mkCtx false]) h)) w)).

(** The stop callback in closed form. *)
Definition after_stop (b : Blob) (w : World) : World :=
  exec (notify done)
    (exec (setUI done)
       (on_vars (set_state done)
          (visualiser_stopped
             (exec release_stream
                (emit (ConsoleLogBlobReady (blob_size b) (blob_type b))
                   (on_vars (set_blob (Some b)) w)))))).

(** The continuation after a granted microphone in closed form. *)
Definition after_start (s : nat) (data : list byte) (w : World) : World :=
  let r := length (recorders (host w)) in
  exec (notify recording)
    (exec (setUI recording)
       (on_vars (set_state recording)
          (visualiser_started s data
             (on_host (λ h, set_recorders (recorders h ++ [mkRTC s true]) h)
                (on_vars (λ v, set_recordRTC (Some r) (set_stream (Some s) v)) w))))).

(** Example worlds: a page with three bars, after some events. *)
Definition page3 : Dom := mkDom false "" false "" "▶" [0%float; 0%float; 0%float].

Definition world_after (evs : list Event) : World :=
  default (initial page3) (run evs (initial page3)).

Definition recording_events : list Event :=
  [DOMContentLoaded; SetOnStateChange (Some 7); CallToggle;
   MicGranted 1 (replicate binCount x80)].

Definition clip : Blob := mkBlob 10 "audio/webm".

(** Recording, with a callback installed. *)
Definition world_recording : World := world_after recording_events.
(** Asked to stop, the stop callback still pending. *)
Definition world_stopping : World := world_after (recording_events ++ [CallToggle]).
(** Asked to stop, one more frame drawn, the stop callback still pending. *)
Definition world_stopping_drawn : World :=
  world_after (recording_events ++ [CallToggle; AnimationFrame 1 (replicate binCount xff)]).
(** A recording done. *)
Definition world_done : World :=
  world_after (recording_events ++ [CallToggle; EncoderStopped clip]).
(** Asked to start, the answer of [getUserMedia] still pending. *)
Definition world_asking : World := world_after [DOMContentLoaded; CallToggle].
(** Playback started and paused at once, before any of the clip was played. *)
Definition world_paused_at_start : World :=
  world_after (recording_events ++ [CallToggle; EncoderStopped clip; CallPlay; CallPlay]).

(** The event is a frame of the visualiser. *)
Definition is_frame (ev : Event) : Prop :=
  match ev with
  | AnimationFrame _ _ => True
  | _ => False
  end.

(** What the stop callback has done when it takes [w1] to [w2]: the stream
    [w1] held is released, the frame [w1] had scheduled is cancelled and every
    bar is back at 4px, the state is 'done', and [onStateChange], when
    installed, was called exactly once, with 'done'. *)
Definition torn_down (w1 w2 : World) : Prop :=
  ∃ s f,
    stream (vars w1) = Some s ∧ animFrame (vars w1) = Some f ∧ scheduled f w1 ∧
    (* the stream is released *)
    released s w2 ∧ stream (vars w2) = None ∧
    (* the visualiser is detached *)
    ¬ scheduled f w2 ∧ animFrame (vars w2) = None ∧
    Forall (λ h, h = 4%float) (bar_heights (dom w2)) ∧
    (* the state is 'done' and the page is told once *)
    state (vars w2) = done ∧
    ∃ new, effects w2 = effects w1 ++ new ∧
           notifications new = match onStateChange w1 with Some _ => [done] | None => [] end.

(** The teardown of a previous toggle is in flight: the state is still
    'recording' and the current recorder has been asked to stop and has not
    yet called the stop callback. *)
Definition teardown_in_flight (w : World) : Prop :=
  state (vars w) = recording ∧
  ∃ r, recordRTC (vars w) = Some r ∧ r ∈ pendingStops (host w).

(** The setup of a previous toggle is in flight: the answer to its
    [getUserMedia] is still pending and no recording has started. *)
Definition setup_in_flight (w : World) : Prop :=
  state (vars w) ≠ recording ∧ pendingMic (host w) ≠ 0.

(** A call of [toggle] is rejected in [w]: it changes no variable of the
    script and asks nothing of the browser (a notice to the user apart). *)
Definition toggle_rejected (w : World) : Prop :=
  vars (exec toggle w) = vars w ∧ host (exec toggle w) = host w.

(** The artifact of the last recording completed in a run of events. *)
Definition artifact_after (acc : option Blob) (evs : list Event) : option Blob :=
  foldl (λ acc ev, match ev with EncoderStopped b => Some b | _ => acc end) acc evs.
Definition last_artifact (evs : list Event) : option Blob := artifact_after None evs.

(** One playback cycle from [w], paused when the element reports position
    [t]: play, pause in place, resume the same element from [t], natural end;
    every object URL made on the way is revoked at the end. *)
Definition playback_cycle (w : World) (t : float) : Prop :=
  ∃ w1 w2 w3 w4 w5 e,
    playback w = stopped ∧
    step CallPlay w = Some w1 ∧
    playback w1 = playing ∧ audioEl (vars w1) = Some e ∧
    step (AudioProgress e t) w1 = Some w2 ∧
    step CallPlay w2 = Some w3 ∧
    playback w3 = paused ∧ audioEl (vars w3) = Some e ∧ position w3 = Some t ∧
    step CallPlay w3 = Some w4 ∧
    playback w4 = playing ∧ audioEl (vars w4) = Some e ∧ position w4 = Some t ∧
    step (AudioEnded e) w4 = Some w5 ∧
    playback w5 = stopped ∧
    ∀ u, length (urls (host w)) ≤ u < length (urls (host w5)) →
         url_live <$> urls (host w5) !! u = Some false.

(** Two recordings started one after the other from [w], on streams of
    [t1] and [t2] tracks, end in [w2]: both streams are open with every track
    live, both recorders are recording, and the session holds the second of
    each. *)
Definition two_recordings (w : World) (t1 t2 : nat) (w2 : World) : Prop :=
  let s := length (streams (host w)) in
  let r := length (recorders (host w)) in
  state (vars w2) = recording ∧
  streams (host w2) = streams (host w) ++ [replicate t1 live; replicate t2 live] ∧
  recorders (host w2) = recorders (host w) ++ [mkRTC s true; mkRTC (S s) true] ∧
  stream (vars w2) = Some (S s) ∧
  recordRTC (vars w2) = Some (S r).

(** The recorders of the reachable worlds: the one in [recordRTC] exists, and
    one that holds a stop callback exists and has stopped recording. *)
Record recorders_inv (w : World) : Prop := mkRecordersInv {
  current_exists :
    ∀ r, recordRTC (vars w) = Some r → r < length (recorders (host w));
  holders_stopped :
    Forall (λ r, rtc_recording <$> recorders (host w) !! r = Some false)
           (pendingStops (host w))
}.

(** The invariant of the reachable worlds: before [init] nothing has happened;
    while recording there are a recorder, an open stream, an analyser and a
    scheduled frame whose identifier is in [animFrame]; a pending stop
    callback has its recorder; every scheduled [draw] counts no more bars
    than the page has. *)
Record consistent (w : World) : Prop := mkConsistent {
  unbound_pristine :
    refs_bound (vars w) = false →
    state (vars w) = idle ∧ blob (vars w) = None ∧
    pendingMic (host w) = 0 ∧ pendingStops (host w) = [];
  recording_live :
    state (vars w) = recording →
    is_Some (recordRTC (vars w)) ∧
    (∃ s, stream (vars w) = Some s ∧ s < length (streams (host w))) ∧
    (∃ f, animFrame (vars w) = Some (S f) ∧ scheduled (S f) w) ∧
    is_Some (analyser (vars w));
  stops_have_recorder :
    pendingStops (host w) ≠ [] → is_Some (recordRTC (vars w));
  frames_fit :
    Forall (λ f, count f.2 ≤ length (bar_heights (dom w))) (frames (host w))
}.

(** Reduction behaviour for running script code symbolically. *)
Arguments bind {A B} m k w /.
Arguments ret {A} a w /.
Arguments throw {A} e w /.
Arguments gets {A} f w /.
Arguments modify f w /.
Arguments exec {A} m w /.
Arguments notifications es : simpl never.
Arguments completion {A} m w /.
Arguments on_vars f w /.
Arguments on_dom f w /.
Arguments on_host f w /.
Arguments emit e w /.
Arguments set_onStateChange x w /.
Arguments set_refs_bound x v /.
Arguments set_recordRTC x v /.
Arguments set_stream x v /.
Arguments set_audioCtx x v /.
Arguments set_analyser x v /.
Arguments set_animFrame x v /.
Arguments set_blob x v /.
Arguments set_state x v /.
Arguments set_audioEl x v /.
Arguments set_micBtn_recording x d /.
Arguments set_micLabel_text x d /.
Arguments set_recWrapper_visible x d /.
Arguments set_recDone_display x d /.
Arguments set_playBtn_text x d /.
Arguments set_bar_heights x d /.
Arguments set_streams x h /.
Arguments set_recorders x h /.
Arguments set_contexts x h /.
Arguments set_analysers x h /.
Arguments set_frames x h /.
Arguments set_lastFrame x h /.
Arguments set_audios x h /.
Arguments set_urls x h /.
Arguments set_pendingMic x h /.
Arguments set_pendingStops x h /.



(** ** Further invariants of the reachable worlds *)

(** What [setUI(s)] leaves in the document. *)
Definition ui_shows (s : RecState) (d : Dom) : Prop :=
  match s with
  | recording =>
      micBtn_recording d = true ∧ micLabel_text d = "Arrêter l'enregistrement" ∧
      recWrapper_visible d = true ∧ recDone_display d = "none"
  | done =>
      micBtn_recording d = false ∧ micLabel_text d = "Reenregistrer" ∧
      recWrapper_visible d = false ∧ recDone_display d = "flex"
  | idle =>
      micBtn_recording d = false ∧ micLabel_text d = "Enregistrer un message vocal" ∧
      recWrapper_visible d = false ∧ recDone_display d = "none"
  end.

(** Every track of stream [s] is live. *)
Definition open_stream (s : nat) (w : World) : Prop :=
  ∃ ts, streams (host w) !! s = Some ts ∧ Forall (λ t, t = live) ts.

(** The recording side of a reachable world: the stream, the audio context,
    the analyser and the frame identifier are held exactly while the state is
    'recording', and the held stream is live; 'idle' has no blob and no
    recorder, 'done' has a blob; outside 'idle' the document shows what
    [setUI] wrote for the state; every scheduled [draw] was made for
    [binCount] bins and all the bars; [onStateChange] was never given
    'idle'. *)
Record session_inv (w : World) : Prop := mkSessionInv {
  stream_iff : is_Some (stream (vars w)) ↔ state (vars w) = recording;
  audioCtx_iff : is_Some (audioCtx (vars w)) ↔ state (vars w) = recording;
  analyser_iff : is_Some (analyser (vars w)) ↔ state (vars w) = recording;
  animFrame_iff : is_Some (animFrame (vars w)) ↔ state (vars w) = recording;
  stream_open : ∀ s, stream (vars w) = Some s → open_stream s w;
  idle_blank : state (vars w) = idle → blob (vars w) = None ∧ recordRTC (vars w) = None;
  done_blob : state (vars w) = done → is_Some (blob (vars w));
  ui_state : state (vars w) ≠ idle → ui_shows (state (vars w)) (dom w);
  frames_exact :
    Forall (λ f, f.2 = mkDraw binCount (length (bar_heights (dom w)))) (frames (host w));
  notified : Forall (λ s, s ≠ idle) (notifications (effects w))
}.

(** What playback reads and writes: the current element, the elements, the
    object URLs and the play button. *)
Definition playback_side (w : World) : option nat * list AudioObj * list ObjectURL * string :=
  (audioEl (vars w), audios (host w), urls (host w), playBtn_text (dom w)).

(** What recording reads and writes: every variable but [audioEl], the
    microphone button, its label, the bars and the done row, the streams,
    recorders, audio graph, schedule and pending continuations, and the calls
    of [onStateChange]. *)
Record RecordingSide : Type := mkRecordingSide {
  rs_vars : bool * option nat * option nat * option nat * option nat * option nat *
            option Blob * RecState;
  rs_callback : option nat;
  rs_dom : bool * string * bool * string * list float;
  rs_host : list (list TrackState) * list RecordRTCObj * list AudioContextObj *
            list AnalyserObj * list (nat * DrawClosure) * nat * nat * list nat;
  rs_notified : list RecState
}.

Definition recording_side (w : World) : RecordingSide :=
  let v := vars w in let d := dom w in let h := host w in
  mkRecordingSide
    (refs_bound v, recordRTC v, stream v, audioCtx v, analyser v, animFrame v, blob v, state v)
    (onStateChange w)
    (micBtn_recording d, micLabel_text d, recWrapper_visible d, recDone_display d,
     bar_heights d)
    (streams h, recorders h, contexts h, analysers h, frames h, lastFrame h, pendingMic h,
     pendingStops h)
    (notifications (effects w)).

(** The playback side of a reachable world: the element in [audioEl] exists
    and its object URL has not been revoked; every element that is not
    paused is the one in [audioEl]; every element has the [onended] handler
    of its own URL; the play button shows the pause glyph while the current
    element plays and the play glyph while it is paused; no element was made
    before the references were bound. *)
Record playback_inv (w : World) : Prop := mkPlaybackInv {
  current_valid :
    ∀ e, audioEl (vars w) = Some e →
         ∃ a o, audios (host w) !! e = Some a ∧
                urls (host w) !! au_src a = Some o ∧ url_live o = true;
  others_paused :
    ∀ e a, audios (host w) !! e = Some a → au_paused a = false → audioEl (vars w) = Some e;
  handlers :
    ∀ e a, audios (host w) !! e = Some a → au_onended a = Some (au_src a);
  button_shows :
    ∀ e a, audioEl (vars w) = Some e → audios (host w) !! e = Some a →
           playBtn_text (dom w) = if au_paused a then "▶" else "⏸";
  unbound_silent : refs_bound (vars w) = false → audios (host w) = []
}.

(** The event belongs to recording: a toggle, one of its continuations, or a
    frame of the visualiser. *)
Definition is_recording_event (ev : Event) : Prop :=
  match ev with
  | CallToggle | MicGranted _ _ | MicDenied | EncoderStopped _ | AnimationFrame _ _ => True
  | _ => False
  end.

(** The event belongs to playback: a call of [play] or a report of the audio
    element. *)
Definition is_playback_event (ev : Event) : Prop :=
  match ev with
  | CallPlay | AudioProgress _ _ | AudioEnded _ => True
  | _ => False
  end.

(** The state an event leads to: the two continuations of [toggle] set it,
    nothing else does. *)
Definition state_after (ev : Event) (s : RecState) : RecState :=
  match ev with
  | MicGranted _ _ => recording
  | EncoderStopped _ => done
  | _ => s
  end.

(** Further example worlds.  The clip is playing, from its start. *)
Definition world_playing : World :=
  world_after (recording_events ++ [CallToggle; EncoderStopped clip; CallPlay]).
(** The clip is playing, two and a half seconds in. *)
Definition world_playing_mid : World :=
  world_after (recording_events ++
               [CallToggle; EncoderStopped clip; CallPlay; AudioProgress 0 2.5%float]).
(** Two toggles before the microphone answered, both granted, then a stop:
    the recording is done and the frame of the first visualiser is still on
    the schedule. *)
Definition world_stale_frame : World :=
  world_after [DOMContentLoaded; CallToggle; CallToggle;
               MicGranted 1 (replicate binCount x80); MicGranted 1 (replicate binCount x80);
               CallToggle; EncoderStopped clip].
(** The same, before the stop: recording on the second stream, the first one
    no longer in [stream]. *)
Definition world_double_start : World :=
  world_after [DOMContentLoaded; CallToggle; CallToggle;
               MicGranted 1 (replicate binCount x80); MicGranted 1 (replicate binCount x80)].
(** The clip was played to its end. *)
Definition world_ended : World :=
  world_after (recording_events ++
               [CallToggle; EncoderStopped clip; CallPlay; AudioProgress 0 2.5%float;
                AudioEnded 0]).

(** The frame left over in [world_stale_frame] has run. *)
Definition world_stale_frame_run : World :=
  world_after [DOMContentLoaded; CallToggle; CallToggle;
               MicGranted 1 (replicate binCount x80); MicGranted 1 (replicate binCount x80);
               CallToggle; EncoderStopped clip; AnimationFrame 1 (replicate binCount xff)].

(** * Proofs *)

(** ** Running script code symbolically *)

(** Unfold the script down to the monad, leaving the functions that run a
    loop over the bars ([draw], [startVisualiser] and [stopVisualiser]) for
    their own lemmas. *)
Ltac js_unfold :=
  unfold toggle, stop_callback, toggle_granted, toggle_denied, onended, play, fresh_play,
    release_stream, notify, setUI, set_playBtn, bars_length, init, alert,
    getUserMedia, stop_tracks, new_RecordRTC, startRecording, stopRecording,
    new_AudioContext, close_context, createMediaStreamSource, createAnalyser, set_fftSize,
    connect, on_analyser, frequencyBinCount, requestAnimationFrame, cancelAnimationFrame,
    createObjectURL, revokeObjectURL, new_Audio, audio_prop, audio_pause, audio_play,
    audio_set_onended, on_audio.

Ltac js_simpl :=
  cbn -[draw startVisualiser stopVisualiser for_each set_bar_height paint seq
        toggle toggle_granted toggle_denied stop_callback play onended] in *.

(** Name every variable, element property and browser store of a world. *)
Ltac destruct_world w :=
  destruct w as [[v_refs v_rtc v_stream v_ctx v_an v_frame v_blob v_state v_el] w_cb
                 [d_btn d_label d_wrap d_done d_play d_bars]
                 [h_streams h_recs h_ctxs h_ans h_frames h_last h_audios h_urls h_mic h_stops]
                 w_es].

(** Case analysis on whatever the code still branches on. *)
Ltac js_cases :=
  repeat match goal with
         | |- context [match ?x with _ => _ end] =>
             lazymatch x with
             | context [match _ with _ => _ end] => fail
             | _ => destruct x eqn:?
             end; js_simpl
         end.

(** ** Lists, and the loop over the bars *)

Lemma alter_snoc {A} (f : A → A) (l : list A) (x : A) :
  alter f (length l) (l ++ [x]) = l ++ [f x].
Proof.
  replace (length l) with (length l + 0) at 1 by lia.
  by rewrite alter_app_r.
Qed.

Lemma lookup_snoc {A} (l : list A) (x : A) : (l ++ [x]) !! length l = Some x.
Proof. by apply list_lookup_middle. Qed.

(** Simplify, resolving reads and updates of an object just allocated. *)
Ltac snoc_simpl := js_simpl; rewrite ?alter_snoc, ?lookup_snoc; js_simpl.

Section Bars.

Variable h : nat → float.

Lemma length_paint idx hs : length (paint h idx hs) = length hs.
Proof.
  revert hs. induction idx as [|i idx IH]; intros hs; simpl; [done|].
  rewrite IH. apply length_insert.
Qed.

Lemma paint_seq_lookup n hs i :
  n ≤ length hs →
  paint h (seq 0 n) hs !! i = if decide (i < n) then Some (h i) else hs !! i.
Proof.
  induction n as [|n IH]; intros Hn.
  - destruct (decide (i < 0)); [lia|reflexivity].
  - rewrite seq_S. unfold paint in *. rewrite foldl_app. cbn [foldl Nat.add].
    destruct (decide (i = n)) as [->|Hne].
    + rewrite list_lookup_insert_eq.
      * destruct (decide (n < S n)); [reflexivity|lia].
      * fold (paint h (seq 0 n) hs). rewrite length_paint. lia.
    + rewrite list_lookup_insert_ne by done. rewrite IH by lia.
      repeat case_decide; try done; lia.
Qed.

Lemma for_each_set_bar idx w :
  refs_bound (vars w) = true →
  Forall (λ i, i < length (bar_heights (dom w))) idx →
  for_each idx (λ i, set_bar_height i (h i)) w =
    (Normal tt, on_dom (λ d, set_bar_heights (paint h idx (bar_heights d)) d) w).
Proof.
  revert w. induction idx as [|i idx IH]; intros w Hb Hall.
  - destruct w as [v cb d ho es], d. reflexivity.
  - apply Forall_cons in Hall as [Hi Hall].
    cbn [for_each]. unfold bind at 1.
    assert (set_bar_height i (h i) w =
            (Normal tt, on_dom (λ d, set_bar_heights (<[i := h i]> (bar_heights d)) d) w)) as ->.
    { unfold set_bar_height, bind, bars_length, gets. rewrite Hb.
      case_decide; [done|lia]. }
    rewrite IH.
    + destruct w as [v cb d ho es], d. reflexivity.
    + done.
    + destruct w as [v cb d ho es], d. simpl in *.
      rewrite length_insert. done.
Qed.

End Bars.

Lemma paint_all (x : float) (hs : list float) :
  Forall (λ y, y = x) (paint (λ _, x) (seq 0 (length hs)) hs).
Proof.
  apply Forall_lookup. intros i y Hy.
  apply lookup_lt_Some in Hy as Hlt. rewrite length_paint in Hlt.
  rewrite paint_seq_lookup in Hy by done.
  destruct (decide (i < length hs)); [congruence|lia].
Qed.

(** Whatever the loop over the bars does, it only writes bar heights. *)
Lemma for_each_set_bar_frame (h : nat → float) (idx : list nat) (w : World) :
  ∃ r hs, for_each idx (λ i, set_bar_height i (h i)) w =
          (r, on_dom (set_bar_heights hs) w) ∧ length hs = length (bar_heights (dom w)).
Proof.
  revert w. induction idx as [|i idx IH]; intros w.
  - exists (Normal tt), (bar_heights (dom w)). split; [|done]. by destruct_world w.
  - cbn [for_each]. unfold bind at 1.
    unfold set_bar_height at 1, bind, bars_length, gets.
    destruct (decide (i < _)).
    + cbn [modify].
      destruct (IH (on_dom (λ d, set_bar_heights (<[i := h i]> (bar_heights d)) d) w))
        as (r & hs & -> & Hlen).
      exists r, hs. split; [by destruct_world w|].
      rewrite Hlen. destruct_world w. cbn. apply length_insert.
    + exists (Throw (TypeError "bars[i] is undefined")), (bar_heights (dom w)).
      split; [|done]. by destruct_world w.
Qed.

(** ** The visualiser *)

Lemma all_bytes_complete (b : byte) : b ∈ all_bytes.
Proof.
  unfold all_bytes. apply list_elem_of_fmap.
  exists (N.to_nat (Byte.to_N b)). split.
  - by rewrite N2Nat.id, Byte.of_to_N.
  - apply elem_of_seq. pose proof (Byte.to_N_bounded b) as Hb.
    revert Hb. generalize (Byte.to_N b). intros n Hn. lia.
Qed.

Lemma height_in_range_all (b : byte) : height_in_range b = true.
Proof.
  assert (forallb height_in_range all_bytes = true) as H by (vm_compute; reflexivity).
  rewrite forallb_forall in H. apply H, list_elem_of_In, all_bytes_complete.
Qed.

Lemma height_monotone_all (b1 b2 : byte) : height_monotone b1 b2 = true.
Proof.
  assert (forallb (λ x, forallb (height_monotone x) all_bytes) all_bytes = true) as H
    by (vm_compute; reflexivity).
  rewrite forallb_forall in H.
  specialize (H b1 (proj1 (list_elem_of_In _ _) (all_bytes_complete b1))).
  rewrite forallb_forall in H. apply H, list_elem_of_In, all_bytes_complete.
Qed.

(** The bin bar [i] reads lies inside the array. *)
Lemma bin_in_range (i n len : nat) : i < n → 0 < len → i * len / n < len.
Proof.
  intros Hi Hlen. apply Nat.Div0.div_lt_upper_bound. nia.
Qed.

(** What [draw] leaves behind when the analyser is there and [count] is the
    number of bars. *)
Lemma draw_exec (c : DrawClosure) (data : list byte) (w : World) :
  refs_bound (vars w) = true →
  is_Some (analyser (vars w)) →
  count c ≤ length (bar_heights (dom w)) →
  draw c data w =
    (Normal tt,
     on_vars (set_animFrame (Some (S (lastFrame (host w)))))
       (on_host (λ h, set_lastFrame (S (lastFrame h)) (set_frames (frames h ++ [(S (lastFrame h), c)]) h))
          (on_dom (λ d, set_bar_heights
                          (paint (λ i, bar_height (to_number (data !! (i * dataLength c / count c))))
                                 (seq 0 (count c)) (bar_heights d)) d) w))).
Proof.
  intros Hb [a Ha] Hc. unfold draw.
  unfold bind at 1. unfold gets at 1. rewrite Ha.
  unfold bind at 1.
  rewrite (for_each_set_bar (λ i, bar_height (to_number (data !! (i * dataLength c / count c))))).
  - destruct w as [v cb d ho es], d, ho. reflexivity.
  - done.
  - apply Forall_forall. intros i Hi%elem_of_seq. lia.
Qed.

(** [draw] either throws after writing some bars, or writes bars, schedules
    the next frame and stores its identifier. *)
Lemma draw_cases (c : DrawClosure) (data : list byte) (w : World) :
  ∃ r hs, length hs = length (bar_heights (dom w)) ∧
    draw c data w =
    (r, match r with
        | Normal _ =>
            on_vars (set_animFrame (Some (S (lastFrame (host w)))))
              (on_host (λ h, set_lastFrame (S (lastFrame h))
                               (set_frames (frames h ++ [(S (lastFrame h), c)]) h))
                 (on_dom (set_bar_heights hs) w))
        | Throw _ => on_dom (set_bar_heights hs) w
        end).
Proof.
  unfold draw. unfold bind at 1. unfold gets at 1.
  destruct (analyser (vars w)) as [a|].
  - unfold bind at 1.
    destruct (for_each_set_bar_frame
                (λ i, bar_height (to_number (data !! (i * dataLength c / count c))))
                (seq 0 (count c)) w) as (r & hs & -> & Hlen).
    destruct r as [[]|e].
    + exists (Normal tt), hs. split; [done|]. by destruct_world w.
    + by exists (Throw e), hs.
  - exists (Throw (TypeError "analyser is null")), (bar_heights (dom w)).
    split; [done|]. by destruct_world w.
Qed.

(** C4: for a bar count N with 1 <= N <= the number of frequency bins and any
    snapshot of that many magnitudes, [draw] completes normally and gives bar
    [i] the height 4 + (m/255) * 48 where [m] is the magnitude of bin
    floor(i * binCount / N); that height lies in [4, 52], and the height is a
    non-decreasing function of the magnitude. *)
Theorem draw_bar_heights (c : DrawClosure) (data : list byte) (w : World) (i : nat) :
  refs_bound (vars w) = true →
  is_Some (analyser (vars w)) →
  count c = length (bar_heights (dom w)) →
  length data = dataLength c →
  1 ≤ count c ≤ dataLength c →
  i < count c →
  completion (draw c data) w = Normal tt ∧
  (∃ m : byte,
     data !! (i * dataLength c / count c) = Some m ∧
     bar_heights (dom (exec (draw c data) w)) !! i
       = Some (4 + (byte_to_number m / 255) * 48)%float ∧
     PrimFloat.leb 4 (4 + (byte_to_number m / 255) * 48) = true ∧
     PrimFloat.leb (4 + (byte_to_number m / 255) * 48) 52 = true) ∧
  (∀ m1 m2 : byte,
     (Byte.to_N m1 ≤ Byte.to_N m2)%N →
     PrimFloat.leb (4 + (byte_to_number m1 / 255) * 48)
                   (4 + (byte_to_number m2 / 255) * 48) = true).
Proof.
  intros Hb Ha Hc Hlen HN Hi.
  unfold completion, exec. rewrite draw_exec by (done || lia).
  split; [reflexivity|]. split.
  - destruct (lookup_lt_is_Some_2 data (i * dataLength c / count c)) as [m Hm].
    { rewrite Hlen. apply bin_in_range; lia. }
    exists m. split; [done|].
    pose proof (height_in_range_all m) as Hr.
    apply andb_true_iff in Hr as [Hlo Hhi].
    split; [|by split].
    destruct w as [v cb d ho es], d. cbn in *.
    rewrite paint_seq_lookup by lia.
    destruct (decide (i < count c)); [|lia].
    rewrite Hm. reflexivity.
  - intros m1 m2 Hle.
    pose proof (height_monotone_all m1 m2) as Hm. unfold height_monotone in Hm.
    apply N.leb_le in Hle. rewrite Hle in Hm. exact Hm.
Qed.

Lemma draw_bar_heights_witness :
  completion (draw (mkDraw binCount 3) (replicate binCount xff)) world_recording = Normal tt ∧
  (∃ m : byte,
     replicate binCount xff !! (2 * binCount / 3) = Some m ∧
     bar_heights (dom (exec (draw (mkDraw binCount 3) (replicate binCount xff)) world_recording)) !! 2
       = Some (4 + (byte_to_number m / 255) * 48)%float ∧
     PrimFloat.leb 4 (4 + (byte_to_number m / 255) * 48) = true ∧
     PrimFloat.leb (4 + (byte_to_number m / 255) * 48) 52 = true) ∧
  (∀ m1 m2 : byte,
     (Byte.to_N m1 ≤ Byte.to_N m2)%N →
     PrimFloat.leb (4 + (byte_to_number m1 / 255) * 48)
                   (4 + (byte_to_number m2 / 255) * 48) = true).
Proof.
  apply (draw_bar_heights (mkDraw binCount 3) (replicate binCount xff) world_recording 2).
  - vm_compute. reflexivity.
  - vm_compute. eexists. reflexivity.
  - vm_compute. reflexivity.
  - vm_compute. reflexivity.
  - vm_compute. lia.
  - vm_compute. lia.
Defined.

Lemma stopVisualiser_exec (w : World) :
  refs_bound (vars w) = true →
  stopVisualiser w = (Normal tt, visualiser_stopped w).
Proof.
  intros Hb. destruct_world w. cbn in Hb. subst.
  unfold stopVisualiser, visualiser_stopped. js_unfold.
  destruct v_frame as [[|f]|], v_ctx as [c|]; js_simpl;
    (rewrite (for_each_set_bar (λ _, 4%float)); [reflexivity|reflexivity|];
     apply Forall_forall; intros i Hi%elem_of_seq; cbn; lia).
Qed.

Lemma startVisualiser_exec (s : nat) (data : list byte) (w : World) :
  refs_bound (vars w) = true →
  stream (vars w) = Some s →
  startVisualiser data w = (Normal tt, visualiser_started s data w).
Proof.
  intros Hb Hs. destruct_world w. cbn in Hb, Hs. subst.
  unfold startVisualiser, visualiser_started. js_unfold. js_simpl.
  rewrite !alter_snoc. rewrite lookup_snoc. js_simpl.
  rewrite draw_exec; [reflexivity|reflexivity|by eexists|cbn; lia].
Qed.

(** ** The parts of [toggle] *)

(** The call part of [toggle] outside 'recording': lazy [init], then one more
    pending [getUserMedia]. *)
Lemma toggle_start_exec (w : World) :
  state (vars w) ≠ recording →
  toggle w = (Normal tt, on_host (λ h, set_pendingMic (S (pendingMic h)) h)
                           (on_vars (set_refs_bound true) w)).
Proof.
  intros Hst. destruct_world w. js_unfold. destruct v_refs, v_state; js_simpl; done.
Qed.

(** The call part of [toggle] in 'recording': lazy [init], then
    [stopRecording] on the current recorder. *)
Lemma toggle_stop_exec (w : World) (r : nat) :
  state (vars w) = recording →
  recordRTC (vars w) = Some r →
  toggle w = (Normal tt,
              on_host (λ h, set_pendingStops
                              (if decide (r ∈ pendingStops h) then pendingStops h
                               else pendingStops h ++ [r])
                              (set_recorders (alter (set_rtc_recording false) r (recorders h)) h))
                (on_vars (set_refs_bound true) w)).
Proof.
  intros Hst Hr. destruct_world w. js_unfold. js_simpl. subst. by destruct v_refs.
Qed.

Lemma toggle_granted_exec (s : nat) (data : list byte) (w : World) :
  refs_bound (vars w) = true →
  toggle_granted s data w = (Normal tt, after_start s data w).
Proof.
  intros Hb. destruct_world w. cbn in Hb. subst.
  unfold toggle_granted, after_start. js_unfold. js_simpl.
  rewrite (startVisualiser_exec s) by reflexivity.
  rewrite alter_snoc.
  unfold visualiser_started. js_simpl.
  rewrite !draw_exec by (reflexivity || (by eexists) || (cbn; lia)).
  destruct w_cb; reflexivity.
Qed.

Lemma stop_callback_exec (b : Blob) (w : World) :
  refs_bound (vars w) = true →
  is_Some (recordRTC (vars w)) →
  stop_callback b w = (Normal tt, after_stop b w).
Proof.
  intros Hb [r Hr]. destruct_world w. cbn in Hb, Hr. subst.
  unfold stop_callback, after_stop. js_unfold.
  destruct v_stream as [s|], w_cb as [cb|]; js_simpl;
    rewrite stopVisualiser_exec by reflexivity; reflexivity.
Qed.

(** ** Invariants of the reachable worlds *)

Lemma consistent_initial (d : Dom) : consistent (initial d).
Proof. split; cbn; done. Qed.

Lemma scheduled_snoc (f : nat) (c : DrawClosure) (fs : list (nat * DrawClosure)) :
  f ∈ (fs ++ [(f, c)]).*1.
Proof. rewrite fmap_app. apply elem_of_app. right. by apply list_elem_of_singleton. Qed.

Lemma frames_fit_snoc (n : nat) (f : nat * DrawClosure) (fs : list (nat * DrawClosure)) :
  Forall (λ f, count f.2 ≤ n) fs → count f.2 ≤ n → Forall (λ f, count f.2 ≤ n) (fs ++ [f]).
Proof. intros Hfs Hf. apply Forall_app. split; [done|]. by apply Forall_singleton. Qed.

Lemma frames_fit_filter (n id : nat) (fs : list (nat * DrawClosure)) :
  Forall (λ f, count f.2 ≤ n) fs →
  Forall (λ f, count f.2 ≤ n) (filter (λ f, f.1 ≠ id) fs).
Proof.
  intros Hfs. apply Forall_forall. intros f [_ Hf]%list_elem_of_filter.
  by apply (proj1 (Forall_forall _ _) Hfs).
Qed.

(** Closing the cases of the invariant. *)
Ltac inv_solve :=
  split; unfold scheduled in *; js_simpl; intros; simplify_eq; try done;
  repeat match goal with
         | H : ?P → _ |- _ =>
             let HP := fresh in
             assert P as HP by (done || (by apply app_cons_not_nil));
             specialize (H HP); clear HP
         | H : _ ∧ _ |- _ => destruct H
         | H : ∃ _, _ |- _ => destruct H
         end;
  simplify_eq; try done;
  repeat match goal with |- _ ∧ _ => split end;
  try done; try (by eexists);
  try (eexists; split; [reflexivity|]);
  rewrite ?length_paint, ?length_app in *; try (cbn; lia);
  eauto 10 using frames_fit_snoc, frames_fit_filter, scheduled_snoc, app_cons_not_nil.

Lemma consistent_step (ev : Event) (w w' : World) :
  consistent w → step ev w = Some w' → consistent w'.
Proof.
  intros [H1 H2 H3 H4] Hstep. destruct ev; cbn [step] in Hstep.
  - (* init *)
    injection Hstep as <-. destruct_world w. js_unfold. js_simpl. inv_solve.
  - (* onStateChange *)
    injection Hstep as <-. destruct_world w. js_simpl. inv_solve.
  - (* toggle *)
    injection Hstep as <-. destruct_world w. js_unfold. js_simpl.
    js_cases; inv_solve.
  - (* play *)
    injection Hstep as <-. destruct_world w. js_unfold. js_simpl.
    js_cases; inv_solve.
  - (* granted *)
    destruct (pendingMic (host w)) as [|n] eqn:Hmic; [done|].
    destruct (decide _); [|done]. apply (inj Some) in Hstep. subst w'.
    destruct_world w. js_simpl. subst.
    destruct v_refs; [|by destruct (H1 eq_refl) as (? & ? & ? & ?)].
    unfold exec. rewrite toggle_granted_exec by reflexivity.
    unfold after_start, visualiser_started. js_unfold. js_simpl.
    rewrite draw_exec by (reflexivity || (by eexists) || (cbn; lia)).
    js_simpl. js_cases; inv_solve.
  - (* denied *)
    destruct (pendingMic (host w)) as [|n] eqn:Hmic; [done|].
    injection Hstep as <-. destruct_world w. js_unfold. js_simpl. subst.
    inv_solve.
  - (* encoder stopped *)
    destruct (pendingStops (host w)) as [|r rest] eqn:Hstops; [done|].
    injection Hstep as <-. destruct_world w. js_simpl. subst.
    destruct v_refs; [|by destruct (H1 eq_refl) as (? & ? & ? & ?)].
    destruct H3 as [r' ->]; [done|].
    unfold exec. rewrite stop_callback_exec by (reflexivity || by eexists).
    unfold after_stop, visualiser_stopped. js_unfold. js_simpl.
    js_cases; inv_solve.
  - (* frame *)
    destruct (list_find _ _) as [[k [id' c]]|] eqn:Hfind; [|done].
    destruct (decide _); [|done]. injection Hstep as <-.
    apply list_find_Some in Hfind as (Hk & Hid & _). cbn in Hid. subst id'.
    assert (count c ≤ length (bar_heights (dom w))) as Hc.
    { rewrite Forall_lookup in H4. apply (H4 k (id, c) Hk). }
    destruct (decide (state (vars w) = recording)) as [Hrec|Hrec].
    + (* recording: draw completes *)
      destruct (H2 Hrec) as (Hr & Hs & (f & Hf & Hsch) & Ha).
      destruct_world w. js_simpl. subst.
      destruct v_refs; [|by destruct (H1 eq_refl) as (? & ? & ? & ?)].
      js_unfold. js_simpl. rewrite draw_exec by done.
      js_simpl. inv_solve.
    + match goal with
      | |- consistent (snd (draw ?c ?d ?W)) => destruct (draw_cases c d W) as (r & hs & Hlen & ->)
      end.
      destruct_world w. js_unfold. js_simpl.
      destruct r; js_simpl; inv_solve;
        rewrite Hlen; eauto using frames_fit_snoc, frames_fit_filter.
  - (* progress *)
    destruct (audios (host w) !! e) as [a|] eqn:Ha; [|done].
    destruct (au_paused a); [done|]. injection Hstep as <-.
    destruct_world w. js_unfold. js_simpl. inv_solve.
  - (* ended *)
    destruct (audios (host w) !! e) as [a|] eqn:Ha; [|done].
    destruct (au_paused a); [done|].
    destruct (au_onended a); injection Hstep as <-;
      destruct_world w; js_unfold; js_simpl; js_cases; inv_solve.
Qed.

(** ** One event, run symbolically *)

(** Run the handler of [ev] on a world taken apart, using the invariant
    [consistent] (as [H1] to [H4]) where the handler needs bound references
    or a recorder.  What is left is the goal about the world after, with the
    code still branching where the world does not decide. *)
Ltac step_exec ev w w' H1 H2 H3 H4 Hstep :=
  destruct ev; cbn [step] in Hstep;
  [ (* init *)
    injection Hstep as <-; destruct_world w; js_unfold; js_simpl
  | (* onStateChange *)
    injection Hstep as <-; destruct_world w; js_simpl
  | (* toggle *)
    injection Hstep as <-; destruct_world w; js_unfold; js_simpl
  | (* play *)
    injection Hstep as <-; destruct_world w; js_unfold; js_simpl
  | (* granted *)
    let n := fresh "n" in
    destruct (pendingMic (host w)) as [|n] eqn:?; [done|];
    destruct (decide _); [|done]; apply (inj Some) in Hstep; subst w';
    destruct_world w; js_simpl; subst;
    match type of H1 with
    | ?b = false → _ => destruct b; [|by destruct (H1 eq_refl) as (? & ? & ? & ?)]
    end;
    unfold exec; rewrite toggle_granted_exec by reflexivity;
    unfold after_start, visualiser_started; js_unfold; js_simpl;
    rewrite draw_exec by (reflexivity || (by eexists) || (cbn; lia));
    js_simpl
  | (* denied *)
    let n := fresh "n" in
    destruct (pendingMic (host w)) as [|n] eqn:?; [done|];
    injection Hstep as <-; destruct_world w; js_unfold; js_simpl; subst
  | (* encoder stopped *)
    let r := fresh "r" in let rest := fresh "rest" in let r' := fresh "r'" in
    destruct (pendingStops (host w)) as [|r rest] eqn:?; [done|];
    injection Hstep as <-; destruct_world w; js_simpl; subst;
    match type of H1 with
    | ?b = false → _ => destruct b; [|by destruct (H1 eq_refl) as (? & ? & ? & ?)]
    end;
    destruct H3 as [r' ->]; [done|];
    unfold exec; rewrite stop_callback_exec by (reflexivity || by eexists);
    unfold after_stop, visualiser_stopped; js_unfold; js_simpl
  | (* frame *)
    idtac
  | (* progress *)
    let a := fresh "a" in
    destruct (audios (host w) !! _) as [a|] eqn:?; [|done];
    destruct (au_paused a) eqn:?; [done|]; injection Hstep as <-;
    destruct_world w; js_unfold; js_simpl
  | (* ended *)
    let a := fresh "a" in
    destruct (audios (host w) !! _) as [a|] eqn:?; [|done];
    destruct (au_paused a) eqn:?; [done|];
    destruct (au_onended a) eqn:?; injection Hstep as <-;
    destruct_world w; js_unfold; js_simpl ].

Lemma reachable_consistent (w : World) : reachable w → consistent w.
Proof.
  induction 1 as [d|ev w w' _ IH Hstep].
  - apply consistent_initial.
  - by apply (consistent_step ev w).
Qed.

Lemma reachable_run (evs : list Event) (w w' : World) :
  reachable w → run evs w = Some w' → reachable w'.
Proof.
  revert w. induction evs as [|ev evs IH]; intros w Hw Hrun; cbn in Hrun.
  - by injection Hrun as <-.
  - destruct (step ev w) as [w1|] eqn:Hstep; [|done].
    eapply IH; [|done]. by eapply reachable_step.
Qed.

Lemma world_after_reachable (evs : list Event) : reachable (world_after evs).
Proof.
  unfold world_after. destruct (run evs (initial page3)) as [w|] eqn:Hrun; cbn.
  - apply (reachable_run evs (initial page3)); [apply reachable_initial|done].
  - apply reachable_initial.
Qed.

Lemma reachable_blob_bound (w : World) :
  reachable w → is_Some (blob (vars w)) → refs_bound (vars w) = true.
Proof.
  intros [H1 _ _]%reachable_consistent [b Hb].
  destruct (refs_bound (vars w)); [done|].
  destruct H1 as (_ & Hnone & _); [done|]. congruence.
Qed.

(** ** Starting a recording *)

(** C2: for every call of [toggle] outside 'recording' (state 'idle' or
    'done'), the call returns normally and, when the microphone is granted,
    the state becomes 'recording', a recorder is created on the acquired
    stream and started, the analyser is fed by that same stream and a frame
    is scheduled, and [onStateChange], when installed, is called exactly once,
    with 'recording'. *)
Theorem toggle_start_granted (w : World) (tracks : nat) (data : list byte) :
  state (vars w) ≠ recording →
  length data = binCount →
  ∃ w2 s r c a f,
    completion toggle w = Normal tt ∧
    run [CallToggle; MicGranted tracks data] w = Some w2 ∧
    (* the acquired stream *)
    s = length (streams (host w)) ∧
    streams (host w2) !! s = Some (replicate tracks live) ∧
    stream (vars w2) = Some s ∧
    (* the state *)
    state (vars w2) = recording ∧
    (* the encoder is started on that stream *)
    recordRTC (vars w2) = Some r ∧
    recorders (host w2) !! r = Some (mkRTC s true) ∧
    (* the visualiser is attached to that stream *)
    audioCtx (vars w2) = Some c ∧ contexts (host w2) !! c = Some (mkCtx false) ∧
    analyser (vars w2) = Some a ∧ analysers (host w2) !! a = Some (mkAnalyser c 256 (Some s)) ∧
    animFrame (vars w2) = Some f ∧ scheduled f w2 ∧
    (* the page is told once *)
    ∃ new, effects w2 = effects w ++ new ∧
           notifications new = match onStateChange w with Some _ => [recording] | None => [] end.
Proof.
  intros Hst Hlen.
  unfold completion, run, step, exec. rewrite toggle_start_exec by done.
  destruct_world w. js_simpl.
  case_decide; [|done].
  rewrite toggle_granted_exec by reflexivity.
  unfold after_start, visualiser_started. js_unfold. js_simpl.
  rewrite draw_exec by (reflexivity || (by eexists) || (cbn; lia)).
  js_simpl.
  destruct w_cb; js_simpl;
  (eexists _, _, _, _, _, _; split; [reflexivity|]; split; [reflexivity|];
   split; [reflexivity|];
   repeat split;
  [ apply lookup_snoc | apply lookup_snoc | apply lookup_snoc | apply lookup_snoc
  | unfold scheduled; js_simpl; rewrite fmap_app; apply elem_of_app; right; apply list_elem_of_singleton; reflexivity
  | eexists; split; [reflexivity || (symmetry; apply app_nil_r)|reflexivity] ]).
Qed.

Lemma toggle_start_granted_witness :
  ∃ w2 s r c a f,
    completion toggle (exec init (initial page3)) = Normal tt ∧
    run [CallToggle; MicGranted 1 (replicate binCount x80)] (exec init (initial page3)) = Some w2 ∧
    s = length (streams (host (exec init (initial page3)))) ∧
    streams (host w2) !! s = Some (replicate 1 live) ∧
    stream (vars w2) = Some s ∧
    state (vars w2) = recording ∧
    recordRTC (vars w2) = Some r ∧
    recorders (host w2) !! r = Some (mkRTC s true) ∧
    audioCtx (vars w2) = Some c ∧ contexts (host w2) !! c = Some (mkCtx false) ∧
    analyser (vars w2) = Some a ∧ analysers (host w2) !! a = Some (mkAnalyser c 256 (Some s)) ∧
    animFrame (vars w2) = Some f ∧ scheduled f w2 ∧
    ∃ new, effects w2 = effects (exec init (initial page3)) ++ new ∧
           notifications new =
             match onStateChange (exec init (initial page3)) with
             | Some _ => [recording]
             | None => []
             end.
Proof.
  apply (toggle_start_granted (exec init (initial page3)) 1 (replicate binCount x80)).
  - vm_compute. discriminate.
  - vm_compute. reflexivity.
Defined.

(** C3: for every call of [toggle] in state 'idle', the call returns normally
    and, when the microphone is denied, the continuation (which never throws)
    returns normally too; the state is still 'idle', nothing was reported
    through [onStateChange], no recorder, audio context, analyser, frame or
    stream was made, and the user got an alert. *)
Theorem toggle_start_denied (w : World) :
  state (vars w) = idle →
  ∃ w2,
    completion toggle w = Normal tt ∧
    (∀ w', completion toggle_denied w' = Normal tt) ∧
    run [CallToggle; MicDenied] w = Some w2 ∧
    (* the state and the other variables *)
    state (vars w2) = idle ∧
    vars w2 = set_refs_bound true (vars w) ∧
    (* nothing was started *)
    host w2 = host w ∧
    (* the notice, and no state change notification *)
    effects w2 = effects w ++
      [ConsoleError "Mic access denied";
       Alert "Impossible d'accéder au microphone. Veuillez vérifier vos paramètres."] ∧
    notifications (effects w2) = notifications (effects w).
Proof.
  intros Hst. unfold completion, run, step, exec.
  rewrite toggle_start_exec by congruence.
  destruct_world w. js_unfold. js_simpl. subst.
  eexists. repeat split; js_simpl.
  - by rewrite <- app_assoc.
  - unfold notifications. rewrite !omap_app. cbn. by rewrite !app_nil_r.
Qed.

Lemma toggle_start_denied_witness :
  ∃ w2,
    completion toggle (initial page3) = Normal tt ∧
    (∀ w', completion toggle_denied w' = Normal tt) ∧
    run [CallToggle; MicDenied] (initial page3) = Some w2 ∧
    state (vars w2) = idle ∧
    vars w2 = set_refs_bound true (vars (initial page3)) ∧
    host w2 = host (initial page3) ∧
    effects w2 = effects (initial page3) ++
      [ConsoleError "Mic access denied";
       Alert "Impossible d'accéder au microphone. Veuillez vérifier vos paramètres."] ∧
    notifications (effects w2) = notifications (effects (initial page3)).
Proof.
  apply (toggle_start_denied (initial page3)). vm_compute. reflexivity.
Defined.

(** ** Stopping a recording *)

Lemma cancelled_not_scheduled (f : nat) (fs : list (nat * DrawClosure)) :
  f ∉ (filter (λ x, x.1 ≠ f) fs).*1.
Proof.
  intros ([f' c] & -> & Hin)%list_elem_of_fmap.
  apply list_elem_of_filter in Hin as [Hne _]. by apply Hne.
Qed.

Lemma stopped_tracks_ended (s : nat) (ss : list (list TrackState)) :
  s < length ss →
  ∃ ts, alter (fmap (λ _, ended)) s ss !! s = Some ts ∧ Forall (λ t, t = ended) ts.
Proof.
  intros [ts Hts]%lookup_lt_is_Some_2.
  exists ((λ _, ended) <$> ts). split.
  - by rewrite list_lookup_alter_eq, Hts.
  - apply Forall_fmap, Forall_true. intros t. reflexivity.
Qed.

(** A frame of the visualiser leaves the session, the pending callbacks and
    the effects as they are. *)
Lemma frame_step_keeps (id : nat) (data : list byte) (w w' : World) :
  step (AnimationFrame id data) w = Some w' →
  state (vars w') = state (vars w) ∧ stream (vars w') = stream (vars w) ∧
  pendingStops (host w') = pendingStops (host w) ∧
  effects w' = effects w ∧ onStateChange w' = onStateChange w.
Proof.
  intros Hstep. cbn [step] in Hstep.
  destruct (list_find _ _) as [[k [id' c]]|]; [|done].
  destruct (decide _); [|done]. injection Hstep as <-.
  match goal with
  | |- context [snd (draw ?c ?d ?W)] => destruct (draw_cases c d W) as (r & hs & _ & ->)
  end.
  destruct_world w. js_unfold. js_simpl. by destruct r.
Qed.

Lemma frames_run_keep (evs : list Event) (w w' : World) :
  Forall is_frame evs → run evs w = Some w' →
  state (vars w') = state (vars w) ∧ stream (vars w') = stream (vars w) ∧
  pendingStops (host w') = pendingStops (host w) ∧
  effects w' = effects w ∧ onStateChange w' = onStateChange w.
Proof.
  revert w. induction evs as [|ev evs IH]; intros w Hevs Hrun; cbn in Hrun.
  - by injection Hrun as <-.
  - apply Forall_cons in Hevs as [Hev Hevs].
    destruct (step ev w) as [w1|] eqn:Hstep; [|done].
    destruct ev; try done.
    destruct (IH w1 Hevs Hrun) as (-> & -> & -> & -> & ->).
    by apply (frame_step_keeps id data).
Qed.

(** The stop callback, run in a reachable world that is recording. *)
Lemma stop_callback_at_recording (w1 : World) (b : Blob) :
  reachable w1 →
  state (vars w1) = recording →
  pendingStops (host w1) ≠ [] →
  ∃ w2, step (EncoderStopped b) w1 = Some w2 ∧ torn_down w1 w2.
Proof.
  intros Hw Hst Hpend. destruct (reachable_consistent w1 Hw) as [H1 H2 H3 H4].
  destruct (H2 Hst) as ([r Hr] & (s & Hs & Hlt) & (f & Hf & Hsch) & _).
  destruct_world w1. unfold torn_down, scheduled in *. js_simpl. subst.
  destruct v_refs; [|by destruct (H1 eq_refl) as (? & ? & ? & ?)]. clear H1 H2 H3 H4 Hw.
  destruct h_stops as [|r0 rest]; [done|].
  rewrite stop_callback_exec by (reflexivity || by eexists).
  unfold after_stop, visualiser_stopped. js_unfold. js_simpl.
  eexists. split; [reflexivity|]. exists s, (S f).
  destruct w_cb; js_simpl;
    (repeat split;
     [ done
     | by apply stopped_tracks_ended
     | apply cancelled_not_scheduled
     | apply paint_all
     | eexists; split; [by rewrite <- ?app_assoc|reflexivity] ]).
Qed.

(** C1: for every call of [toggle] in a reachable world whose state is
    'recording', the call returns normally; whatever frames of the visualiser
    run before RecordRTC is done, the session still holds the same stream
    then; and once RecordRTC runs the stop callback, that stream is released
    (every track stopped, [stream] cleared), the visualiser is detached (the
    scheduled frame cancelled, [animFrame] cleared, every bar at 4px), the
    state is 'done' and [onStateChange], when the page has installed it, has
    been called exactly once since the call, with 'done'. *)
Theorem toggle_while_recording_stops (w w1 : World) (evs : list Event) (b : Blob) :
  reachable w →
  state (vars w) = recording →
  Forall is_frame evs →
  run (CallToggle :: evs) w = Some w1 →
  completion toggle w = Normal tt ∧
  state (vars w1) = recording ∧
  stream (vars w1) = stream (vars w) ∧
  effects w1 = effects w ∧ onStateChange w1 = onStateChange w ∧
  ∃ w2, step (EncoderStopped b) w1 = Some w2 ∧ torn_down w1 w2.
Proof.
  intros Hw Hst Hevs Hrun.
  assert (reachable w1) as Hw1 by by apply (reachable_run (CallToggle :: evs) w).
  destruct (reachable_consistent w Hw) as [H1 H2 _ _].
  destruct (H2 Hst) as ([r Hr] & _).
  cbn [run step] in Hrun. unfold completion, exec in *.
  rewrite (toggle_stop_exec w r) in * by done. cbn [fst snd] in *.
  destruct (frames_run_keep evs _ w1 Hevs Hrun) as (Hst1 & Hs1 & Hp1 & He1 & Hcb1).
  destruct_world w. js_simpl. subst.
  repeat split; try done.
  apply stop_callback_at_recording; try done.
  rewrite Hp1. js_simpl. destruct (decide (r ∈ h_stops)) as [Hin|_].
  - intros ->. by apply elem_of_nil in Hin.
  - intros Hnil. by apply app_nil in Hnil as [_ ?].
Qed.

Lemma toggle_while_recording_stops_witness :
  completion toggle world_recording = Normal tt ∧
  state (vars world_stopping_drawn) = recording ∧
  stream (vars world_stopping_drawn) = stream (vars world_recording) ∧
  effects world_stopping_drawn = effects world_recording ∧
  onStateChange world_stopping_drawn = onStateChange world_recording ∧
  ∃ w2, step (EncoderStopped clip) world_stopping_drawn = Some w2 ∧
        torn_down world_stopping_drawn w2.
Proof.
  apply (toggle_while_recording_stops world_recording world_stopping_drawn
           [AnimationFrame 1 (replicate binCount xff)] clip).
  - apply world_after_reachable.
  - vm_compute. reflexivity.
  - repeat constructor.
  - vm_compute. reflexivity.
Defined.

Lemma stop_tracks_twice (s : nat) (ss : list (list TrackState)) :
  alter (fmap (λ _, ended)) s (alter (fmap (λ _, ended)) s ss) =
  alter (fmap (λ _, ended)) s ss.
Proof.
  rewrite list_alter_alter. case_decide; [|done].
  apply list_alter_ext; [|done].
  intros ts _. cbn. by rewrite <- list_fmap_compose.
Qed.

(** C9: the release of the stream (lines 106-107 of the stop callback) never
    throws, and running it again after the stream has been released changes
    nothing; stopping the tracks of a stream a second time changes nothing
    either. *)
Theorem release_stream_idempotent (w : World) (s : nat) :
  completion release_stream w = Normal tt ∧
  completion release_stream (exec release_stream w) = Normal tt ∧
  exec release_stream (exec release_stream w) = exec release_stream w ∧
  completion (stop_tracks s) (exec (stop_tracks s) w) = Normal tt ∧
  exec (stop_tracks s) (exec (stop_tracks s) w) = exec (stop_tracks s) w.
Proof.
  destruct_world w. js_unfold. js_simpl.
  rewrite stop_tracks_twice. destruct v_stream; js_simpl; done.
Qed.

(** ** A toggle while another is in flight *)

Lemma stopped_alter (recs : list RecordRTCObj) (r r' : nat) :
  rtc_recording <$> recs !! r' = Some false →
  rtc_recording <$> alter (set_rtc_recording false) r recs !! r' = Some false.
Proof.
  intros Hr'. destruct (decide (r = r')) as [->|Hne].
  - rewrite list_lookup_alter_eq. by destruct (recs !! r').
  - by rewrite list_lookup_alter_ne.
Qed.

Lemma stopped_alter_self (recs : list RecordRTCObj) (r : nat) :
  r < length recs →
  rtc_recording <$> alter (set_rtc_recording false) r recs !! r = Some false.
Proof.
  intros [o Ho]%lookup_lt_is_Some_2. by rewrite list_lookup_alter_eq, Ho.
Qed.

Lemma stopped_app (recs : list RecordRTCObj) (o : RecordRTCObj) (r : nat) :
  rtc_recording <$> recs !! r = Some false →
  rtc_recording <$> (recs ++ [o]) !! r = Some false.
Proof.
  intros Hr. destruct (recs !! r) as [o'|] eqn:Ho; [|done].
  by rewrite (lookup_app_l_Some _ _ _ _ Ho).
Qed.

Lemma recorders_initial (d : Dom) : recorders_inv (initial d).
Proof. split; cbn; [done|constructor]. Qed.

(** Closing the cases of [recorders_inv]. *)
Ltac rec_solve :=
  split; js_simpl;
  [ intros ? ?; simplify_eq; rewrite ?length_alter, ?length_app; cbn;
    (done || lia || eauto with lia)
  | repeat match goal with
           | |- Forall _ (_ ++ [_]) => apply Forall_app; split; [|apply Forall_singleton]
           end;
    try (apply stopped_alter_self; eauto; fail);
    try (eapply Forall_impl; [eassumption|]; cbn;
         eauto using stopped_alter, stopped_app; fail);
    try done ].

Lemma recorders_step (ev : Event) (w w' : World) :
  consistent w → recorders_inv w → step ev w = Some w' → recorders_inv w'.
Proof.
  intros [H1 H2 H3 H4] [R1 R2] Hstep.
  step_exec ev w w' H1 H2 H3 H4 Hstep.
  - rec_solve.
  - rec_solve.
  - js_cases; rec_solve.
  - js_cases; rec_solve.
  - js_cases; rec_solve.
  - rec_solve.
  - apply Forall_cons in R2 as [_ R2]. js_cases; rec_solve.
  - destruct (list_find _ _) as [[k [id' c]]|] eqn:Hfind; [|done].
    destruct (decide _); [|done]. injection Hstep as <-.
    match goal with
    | |- context [draw ?c ?d ?W] => destruct (draw_cases c d W) as (r & hs & _ & Hd)
    end.
    rewrite Hd. clear Hd.
    destruct_world w. js_unfold. js_simpl. destruct r; rec_solve.
  - rec_solve.
  - js_cases; rec_solve.
  - js_cases; rec_solve.
Qed.

Lemma reachable_recorders (w : World) : reachable w → recorders_inv w.
Proof.
  induction 1 as [d|ev w w' Hw IH Hstep].
  - apply recorders_initial.
  - apply (recorders_step ev w); [by apply reachable_consistent|done|done].
Qed.

(** One granted request, in a world with bound references: a new stream,
    a new recorder started on it, and the session holds both. *)
Lemma granted_start (w : World) (tracks : nat) (data : list byte) :
  refs_bound (vars w) = true →
  pendingMic (host w) ≠ 0 →
  length data = binCount →
  ∃ w', step (MicGranted tracks data) w = Some w' ∧
        refs_bound (vars w') = true ∧
        pendingMic (host w') = pred (pendingMic (host w)) ∧
        state (vars w') = recording ∧
        streams (host w') = streams (host w) ++ [replicate tracks live] ∧
        recorders (host w') =
          recorders (host w) ++ [mkRTC (length (streams (host w))) true] ∧
        stream (vars w') = Some (length (streams (host w))) ∧
        recordRTC (vars w') = Some (length (recorders (host w))).
Proof.
  intros Hb Hmic Hlen. cbn [step].
  destruct (pendingMic (host w)) as [|n] eqn:Hn; [done|].
  destruct (decide _); [|done]. eexists. split; [reflexivity|].
  destruct_world w. js_simpl. subst.
  unfold exec. rewrite toggle_granted_exec by reflexivity.
  unfold after_start, visualiser_started. js_unfold. js_simpl.
  rewrite draw_exec by (reflexivity || (by eexists) || (cbn; lia)).
  js_simpl. by js_cases.
Qed.

(** C5 fails: the script has no busy guard.  With the answer to
    [getUserMedia] pending the state is still 'idle', so a second toggle is
    not rejected: it asks for the microphone again, and once both requests
    are granted two streams are open and two recorders are recording. *)
Lemma toggle_in_flight_not_rejected :
  reachable world_asking ∧ setup_in_flight world_asking ∧
  ¬ toggle_rejected world_asking ∧
  pendingMic (host world_asking) = 1 ∧
  pendingMic (host (exec toggle world_asking)) = 2 ∧
  ∃ w', run [CallToggle; MicGranted 1 (replicate binCount x80);
             MicGranted 1 (replicate binCount x80)] world_asking = Some w' ∧
        streams (host w') = [[live]; [live]] ∧
        recorders (host w') = [mkRTC 0 true; mkRTC 1 true].
Proof.
  split; [apply world_after_reachable|].
  split; [split; vm_compute; discriminate|].
  split; [intros [_ H]; vm_compute in H; discriminate|].
  split; [vm_compute; reflexivity|].
  split; [vm_compute; reflexivity|].
  eexists. split; [vm_compute; reflexivity|]. split; vm_compute; reflexivity.
Qed.

(** A second toggle during the teardown hands the recorder the same callback
    again: it runs once, the page is told 'done' once, and no callback is
    left. *)
Lemma double_stop_one_callback :
  ∃ w', run [CallToggle; EncoderStopped clip] world_stopping = Some w' ∧
        notifications (effects w') = [recording; done] ∧
        step (EncoderStopped clip) w' = None.
Proof. eexists. split; [vm_compute; reflexivity|]. split; vm_compute; reflexivity. Qed.

(** C5, as the code has it.  There is no busy guard, and the two halves of
    the claim come out differently.  A call of [toggle] made during the
    teardown of a previous one (the current recorder asked to stop, its
    callback not yet run, the state still 'recording') returns normally and
    changes nothing at all: it hands the recorder the same callback again.
    A call made during the setup of a previous one (the answer to
    [getUserMedia] pending, the state not 'recording') is not rejected: it
    returns normally, changes no variable and opens no stream itself, but
    asks for the microphone once more; each request the browser grants then
    starts a recording, so that after two grants two streams are open, two
    recorders are recording, and the session holds the second of each. *)
Theorem toggle_while_in_flight (w : World) :
  reachable w →
  (teardown_in_flight w →
   completion toggle w = Normal tt ∧ exec toggle w = w) ∧
  (setup_in_flight w →
   completion toggle w = Normal tt ∧
   exec toggle w = on_host (λ h, set_pendingMic (S (pendingMic h)) h) w ∧
   ∀ t1 d1 t2 d2, length d1 = binCount → length d2 = binCount →
     ∃ w1 w2, step (MicGranted t1 d1) (exec toggle w) = Some w1 ∧
              step (MicGranted t2 d2) w1 = Some w2 ∧
              two_recordings w t1 t2 w2).
Proof.
  intros Hw. destruct (reachable_consistent w Hw) as [H1 H2 _ _].
  destruct (reachable_recorders w Hw) as [R1 R2]. split.
  - intros (Hst & r & Hr & Hin).
    assert (refs_bound (vars w) = true) as Hb.
    { destruct (refs_bound (vars w)); [done|].
      destruct (H1 eq_refl) as (? & _). congruence. }
    assert (alter (set_rtc_recording false) r (recorders (host w)) = recorders (host w))
      as Hsame.
    { rewrite Forall_forall in R2. specialize (R2 r Hin).
      destruct (recorders (host w) !! r) as [[s rec]|] eqn:Ho; [|done].
      cbn in R2. injection R2 as ->. apply list_eq. intros i.
      destruct (decide (r = i)) as [<-|Hne].
      - by rewrite list_lookup_alter_eq, Ho.
      - by rewrite list_lookup_alter_ne. }
    unfold completion, exec. rewrite (toggle_stop_exec w r) by done.
    split; [done|]. destruct_world w. js_simpl. subst.
    rewrite Hsame. by destruct (decide (r ∈ h_stops)).
  - intros [Hst Hmic].
    assert (refs_bound (vars w) = true) as Hb.
    { destruct (refs_bound (vars w)); [done|].
      destruct (H1 eq_refl) as (_ & _ & ? & _). congruence. }
    unfold completion, exec. rewrite toggle_start_exec by done. cbn [fst snd].
    split; [done|]. split; [by destruct_world w; js_simpl; subst|].
    intros t1 d1 t2 d2 Hd1 Hd2.
    destruct (granted_start
                (on_host (λ h, set_pendingMic (S (pendingMic h)) h)
                   (on_vars (set_refs_bound true) w)) t1 d1)
      as (w1 & Hstep1 & Hb1 & Hm1 & _ & Hs1 & Hr1 & _ & _);
      [by destruct_world w|by destruct_world w|done|].
    destruct (granted_start w1 t2 d2) as (w2 & Hstep2 & _ & _ & Hst2 & Hs2 & Hr2 & Hv2 & Hc2);
      [done| |done|].
    { rewrite Hm1. by destruct_world w. }
    exists w1, w2. split; [done|]. split; [done|].
    unfold two_recordings. rewrite Hs2, Hr2, Hv2, Hc2, Hs1, Hr1.
    rewrite !length_app, <- !app_assoc. cbn.
    replace (length (streams (host w)) + 1) with (S (length (streams (host w)))) by lia.
    replace (length (recorders (host w)) + 1) with (S (length (recorders (host w)))) by lia.
    by destruct_world w.
Qed.

Lemma toggle_while_in_flight_witness :
  (completion toggle world_stopping = Normal tt ∧
   exec toggle world_stopping = world_stopping) ∧
  (completion toggle world_asking = Normal tt ∧
   exec toggle world_asking
     = on_host (λ h, set_pendingMic (S (pendingMic h)) h) world_asking ∧
   ∀ t1 d1 t2 d2, length d1 = binCount → length d2 = binCount →
     ∃ w1 w2, step (MicGranted t1 d1) (exec toggle world_asking) = Some w1 ∧
              step (MicGranted t2 d2) w1 = Some w2 ∧
              two_recordings world_asking t1 t2 w2).
Proof.
  split.
  - apply (toggle_while_in_flight world_stopping).
    + apply world_after_reachable.
    + split; [vm_compute; reflexivity|].
      exists 0. split; [vm_compute; reflexivity|]. vm_compute. constructor.
  - apply (toggle_while_in_flight world_asking).
    + apply world_after_reachable.
    + split; vm_compute; discriminate.
Defined.

(** ** The artifact *)

(** One event changes the artifact only when it is the stop callback, which
    stores the new blob and moves to 'done' in the same step. *)
Lemma step_getBlob (ev : Event) (w w' : World) :
  reachable w → step ev w = Some w' →
  match ev with
  | EncoderStopped b => getBlob w' = Some b ∧ state (vars w') = done
  | _ => getBlob w' = getBlob w
  end.
Proof.
  intros Hw Hstep. destruct (reachable_consistent w Hw) as [H1 H2 H3].
  unfold getBlob. destruct ev; cbn [step] in Hstep.
  - injection Hstep as <-. by destruct_world w.
  - injection Hstep as <-. by destruct_world w.
  - injection Hstep as <-. destruct_world w. js_unfold. js_simpl. by js_cases.
  - injection Hstep as <-. destruct_world w. js_unfold. js_simpl. by js_cases.
  - destruct (pendingMic (host w)) as [|n] eqn:Hmic; [done|].
    destruct (decide _); [|done]. apply (inj Some) in Hstep. subst w'.
    destruct_world w. js_simpl. subst.
    destruct v_refs; [|by destruct (H1 eq_refl) as (? & ? & ? & ?)].
    unfold exec. rewrite toggle_granted_exec by reflexivity.
    unfold after_start, visualiser_started. js_unfold. js_simpl.
    rewrite draw_exec by (reflexivity || (by eexists) || (cbn; lia)).
    js_simpl. by js_cases.
  - destruct (pendingMic (host w)) as [|n] eqn:Hmic; [done|].
    injection Hstep as <-. by destruct_world w.
  - destruct (pendingStops (host w)) as [|r rest] eqn:Hstops; [done|].
    injection Hstep as <-. destruct_world w. js_simpl. subst.
    destruct v_refs; [|by destruct (H1 eq_refl) as (? & ? & ? & ?)].
    destruct H3 as [r' ->]; [done|].
    unfold exec. rewrite stop_callback_exec by (reflexivity || by eexists).
    unfold after_stop, visualiser_stopped. js_unfold. js_simpl.
    by js_cases.
  - destruct (list_find _ _) as [[k [id' c]]|]; [|done].
    destruct (decide _); [|done]. injection Hstep as <-.
    match goal with
    | |- context [snd (draw ?c ?d ?W)] => destruct (draw_cases c d W) as (r & hs & _ & ->)
    end.
    destruct_world w. js_unfold. js_simpl. by destruct r.
  - destruct (audios (host w) !! e) as [a|] eqn:Ha; [|done].
    destruct (au_paused a); [done|]. injection Hstep as <-.
    by destruct_world w.
  - destruct (audios (host w) !! e) as [a|] eqn:Ha; [|done].
    destruct (au_paused a); [done|].
    destruct (au_onended a); injection Hstep as <-;
      destruct_world w; js_unfold; js_simpl; by js_cases.
Qed.

Lemma run_getBlob (evs : list Event) (w w' : World) :
  reachable w → run evs w = Some w' → getBlob w' = artifact_after (getBlob w) evs.
Proof.
  revert w. induction evs as [|ev evs IH]; intros w Hw Hrun; cbn in Hrun.
  - by injection Hrun as <-.
  - destruct (step ev w) as [w1|] eqn:Hstep; [|done].
    rewrite (IH w1) by (done || by eapply reachable_step).
    unfold artifact_after. cbn [foldl]. f_equal.
    pose proof (step_getBlob ev w w1 Hw Hstep) as H.
    destruct ev; try done. by destruct H.
Qed.

Lemma artifact_after_Some (b : Blob) (evs : list Event) :
  is_Some (artifact_after (Some b) evs).
Proof.
  revert b. induction evs as [|ev evs IH]; intros b; [by eexists|].
  unfold artifact_after. cbn [foldl]. destruct ev; apply IH.
Qed.

Lemma artifact_after_none (evs : list Event) :
  (∀ b, EncoderStopped b ∉ evs) → artifact_after None evs = None.
Proof.
  induction evs as [|ev evs IH]; intros Hno; [done|].
  unfold artifact_after. cbn [foldl].
  destruct ev; try (apply IH; intros b Hin; apply (Hno b); by right).
  exfalso. apply (Hno b). by left.
Qed.

Lemma run_snoc (evs : list Event) (ev : Event) (w w' : World) :
  run (evs ++ [ev]) w = Some w' → ∃ w1, run evs w = Some w1 ∧ step ev w1 = Some w'.
Proof.
  revert w. induction evs as [|ev0 evs IH]; intros w Hrun; cbn in Hrun.
  - exists w. split; [done|]. by destruct (step ev w).
  - destruct (step ev0 w) as [w0|] eqn:Hstep; [|done].
    destruct (IH w0 Hrun) as (w1 & Hrun1 & Hev). exists w1. split; [|done].
    cbn. by rewrite Hstep.
Qed.

(** C6: in every world the page reaches from its initial one, [getBlob]
    returns the blob of the last stop callback that ran: [null] as long as
    none has run; the new blob from the very step that moves to 'done'; the
    same blob after every other event, a new recording being started or under
    way included; and so never [null] again once a recording has completed. *)
Theorem getBlob_latest_artifact (d : Dom) (evs : list Event) (w : World) :
  run evs (initial d) = Some w →
  getBlob w = last_artifact evs ∧
  ((∀ b, EncoderStopped b ∉ evs) → getBlob w = None) ∧
  (∀ evs0 b, evs = evs0 ++ [EncoderStopped b] →
             getBlob w = Some b ∧ state (vars w) = done) ∧
  (∀ ev w', (∀ b, ev ≠ EncoderStopped b) → step ev w = Some w' → getBlob w' = getBlob w) ∧
  (∀ evs' w', run evs' w = Some w' → is_Some (getBlob w) → is_Some (getBlob w')).
Proof.
  intros Hrun.
  assert (reachable w) as Hw by (eapply reachable_run; [apply reachable_initial|done]).
  assert (getBlob w = last_artifact evs) as Hlast.
  { by rewrite (run_getBlob evs (initial d) w) by (done || apply reachable_initial). }
  split; [done|]. split; [|split; [|split]].
  - intros Hno. rewrite Hlast. by apply artifact_after_none.
  - intros evs0 b ->. apply run_snoc in Hrun as (w1 & Hrun1 & Hstep).
    apply (step_getBlob (EncoderStopped b) w1 w); [|done].
    eapply reachable_run; [apply reachable_initial|done].
  - intros ev w' Hne Hstep.
    pose proof (step_getBlob ev w w' Hw Hstep) as H.
    destruct ev; try done. by destruct (Hne b).
  - intros evs' w' Hrun' [b Hb]. rewrite (run_getBlob evs' w w') by done. rewrite Hb.
    apply artifact_after_Some.
Qed.

Lemma getBlob_latest_artifact_witness :
  getBlob world_done = last_artifact (recording_events ++ [CallToggle; EncoderStopped clip]) ∧
  ((∀ b, EncoderStopped b ∉ recording_events ++ [CallToggle; EncoderStopped clip]) →
   getBlob world_done = None) ∧
  (∀ evs0 b, recording_events ++ [CallToggle; EncoderStopped clip] = evs0 ++ [EncoderStopped b] →
             getBlob world_done = Some b ∧ state (vars world_done) = done) ∧
  (∀ ev w', (∀ b, ev ≠ EncoderStopped b) → step ev world_done = Some w' →
            getBlob w' = getBlob world_done) ∧
  (∀ evs' w', run evs' world_done = Some w' →
              is_Some (getBlob world_done) → is_Some (getBlob w')).
Proof.
  apply (getBlob_latest_artifact page3 (recording_events ++ [CallToggle; EncoderStopped clip])
           world_done).
  vm_compute. reflexivity.
Defined.

(** ** Playback *)

(** The three branches of [play] past its guard. *)
Lemma play_fresh_exec (w : World) (b : Blob) :
  refs_bound (vars w) = true →
  blob (vars w) = Some b → blob_size b ≠ 0%N →
  (audioEl (vars w) = None ∨
   ∃ e a, audioEl (vars w) = Some e ∧ audios (host w) !! e = Some a ∧
          au_paused a = true ∧ PrimFloat.ltb 0 (au_time a) = false) →
  play w =
    (Normal tt,
     on_dom (set_playBtn_text "⏸")
       (on_vars (set_audioEl (Some (length (audios (host w)))))
          (on_host (λ h, set_audios
                           (audios h ++ [mkAudio (length (urls h)) false 0 (Some (length (urls h)))])
                           (set_urls (urls h ++ [mkURL b true]) h)) w))).
Proof.
  intros Hb Hblob Hsize%N.eqb_neq Hel. destruct_world w. js_simpl. subst.
  js_unfold. js_simpl. rewrite Hsize.
  destruct Hel as [->|(e & a & -> & Ha & Hp & Ht)]; js_simpl.
  - by rewrite !alter_snoc.
  - rewrite Ha. js_simpl. rewrite Hp. js_simpl. rewrite Ha. js_simpl. rewrite Ht.
    js_simpl. by rewrite !alter_snoc.
Qed.

Lemma play_pause_exec (w : World) (b : Blob) (e : nat) (a : AudioObj) :
  refs_bound (vars w) = true →
  blob (vars w) = Some b → blob_size b ≠ 0%N →
  audioEl (vars w) = Some e → audios (host w) !! e = Some a → au_paused a = false →
  play w =
    (Normal tt,
     on_dom (set_playBtn_text "▶")
       (on_host (λ h, set_audios
                        (alter (λ a, mkAudio (au_src a) true (au_time a) (au_onended a)) e
                               (audios h)) h) w)).
Proof.
  intros Hb Hblob Hsize%N.eqb_neq Hel Ha Hp. destruct_world w. js_simpl. subst.
  js_unfold. js_simpl. rewrite Hsize. js_simpl. rewrite Ha. js_simpl. by rewrite Hp.
Qed.

Lemma play_resume_exec (w : World) (b : Blob) (e : nat) (a : AudioObj) :
  refs_bound (vars w) = true →
  blob (vars w) = Some b → blob_size b ≠ 0%N →
  audioEl (vars w) = Some e → audios (host w) !! e = Some a →
  au_paused a = true → PrimFloat.ltb 0 (au_time a) = true →
  play w =
    (Normal tt,
     on_dom (set_playBtn_text "⏸")
       (on_host (λ h, set_audios
                        (alter (λ a, mkAudio (au_src a) false (au_time a) (au_onended a)) e
                               (audios h)) h) w)).
Proof.
  intros Hb Hblob Hsize%N.eqb_neq Hel Ha Hp Ht. destruct_world w. js_simpl. subst.
  js_unfold. js_simpl. rewrite Hsize. js_simpl. rewrite Ha. js_simpl. rewrite Hp. js_simpl.
  rewrite Ha. js_simpl. by rewrite Ht.
Qed.

(** C7: for every call of [play] when there is no blob or the blob has size
    0, the call returns normally and all it does is raise the alert: no
    object URL and no audio element is made, and the current element, its
    state and the play button are as before. *)
Theorem play_without_recording (w : World) :
  (blob (vars w) = None ∨ ∃ b, blob (vars w) = Some b ∧ blob_size b = 0%N) →
  completion play w = Normal tt ∧
  exec play w = emit (Alert "Aucun enregistrement trouvé.") w ∧
  playback (exec play w) = playback w ∧
  audioEl (vars (exec play w)) = audioEl (vars w) ∧
  audios (host (exec play w)) = audios (host w) ∧
  urls (host (exec play w)) = urls (host w) ∧
  playBtn_text (dom (exec play w)) = playBtn_text (dom w).
Proof.
  intros Hno.
  assert (play w = (Normal tt, emit (Alert "Aucun enregistrement trouvé.") w)) as Hplay.
  { destruct_world w. js_unfold. js_simpl.
    destruct Hno as [->|(b & -> & Hsize)]; [done|]. js_simpl. by rewrite Hsize. }
  unfold completion, exec. rewrite Hplay. by destruct_world w.
Qed.

Lemma play_without_recording_witness :
  completion play world_recording = Normal tt ∧
  exec play world_recording = emit (Alert "Aucun enregistrement trouvé.") world_recording ∧
  playback (exec play world_recording) = playback world_recording ∧
  audioEl (vars (exec play world_recording)) = audioEl (vars world_recording) ∧
  audios (host (exec play world_recording)) = audios (host world_recording) ∧
  urls (host (exec play world_recording)) = urls (host world_recording) ∧
  playBtn_text (dom (exec play world_recording)) = playBtn_text (dom world_recording).
Proof.
  apply (play_without_recording world_recording). left. vm_compute. reflexivity.
Defined.

(** C10: for every call of [play] in a reachable world with a non-empty
    blob whose element is paused at position exactly 0, the call returns
    normally and takes the fresh-play branch: a new object URL is made from
    the current blob and a new element, different from the paused one, plays
    it from position 0; the paused element is left as it was. *)
Theorem play_paused_at_zero_starts_fresh (w : World) (b : Blob) (e : nat) (a : AudioObj) :
  reachable w →
  blob (vars w) = Some b → blob_size b ≠ 0%N →
  audioEl (vars w) = Some e → audios (host w) !! e = Some a →
  au_paused a = true → au_time a = 0%float →
  let e' := length (audios (host w)) in
  let u' := length (urls (host w)) in
  completion play w = Normal tt ∧
  (* a new handle, not the paused one *)
  audioEl (vars (exec play w)) = Some e' ∧ e' ≠ e ∧
  (* made from the current artifact *)
  urls (host (exec play w)) = urls (host w) ++ [mkURL b true] ∧
  (* playing from the beginning, the paused element left as it was *)
  audios (host (exec play w)) = audios (host w) ++ [mkAudio u' false 0 (Some u')] ∧
  audios (host (exec play w)) !! e = Some a ∧
  playback (exec play w) = playing ∧
  position (exec play w) = Some 0%float.
Proof.
  intros Hw Hblob Hsize Hel Ha Hp Ht e' u'.
  assert (refs_bound (vars w) = true) as Hb by (apply reachable_blob_bound; [done|by eexists]).
  unfold completion, exec.
  rewrite (play_fresh_exec w b) by
    (try done; right; exists e, a; repeat split; try done; by rewrite Ht).
  apply lookup_lt_Some in Ha as Hlt.
  subst e' u'. destruct_world w. js_simpl. subst.
  unfold playback, position. js_simpl. rewrite lookup_snoc. js_simpl.
  repeat split; try done; try lia.
  by rewrite lookup_app_l.
Qed.

Lemma play_paused_at_zero_starts_fresh_witness :
  let e' := length (audios (host world_paused_at_start)) in
  let u' := length (urls (host world_paused_at_start)) in
  completion play world_paused_at_start = Normal tt ∧
  audioEl (vars (exec play world_paused_at_start)) = Some e' ∧ e' ≠ 0 ∧
  urls (host (exec play world_paused_at_start)) =
    urls (host world_paused_at_start) ++ [mkURL clip true] ∧
  audios (host (exec play world_paused_at_start)) =
    audios (host world_paused_at_start) ++ [mkAudio u' false 0 (Some u')] ∧
  audios (host (exec play world_paused_at_start)) !! 0 = Some (mkAudio 0 true 0 (Some 0)) ∧
  playback (exec play world_paused_at_start) = playing ∧
  position (exec play world_paused_at_start) = Some 0%float.
Proof.
  apply (play_paused_at_zero_starts_fresh world_paused_at_start clip 0 (mkAudio 0 true 0 (Some 0))).
  - apply world_after_reachable.
  - vm_compute. reflexivity.
  - vm_compute. discriminate.
  - vm_compute. reflexivity.
  - vm_compute. reflexivity.
  - vm_compute. reflexivity.
  - vm_compute. reflexivity.
Defined.

(** C8, as the code has it: for every non-empty blob and nothing playing, a
    cycle that pauses at a position strictly greater than 0 goes stopped,
    playing, paused, playing, stopped: the toggle while playing pauses the
    element in place, the toggle while paused resumes that same element from
    the same position, and the natural end clears [audioEl] and revokes the
    object URL the cycle made. *)
Theorem playback_cycle_mid_play (w : World) (b : Blob) (t : float) :
  reachable w →
  blob (vars w) = Some b → blob_size b ≠ 0%N →
  audioEl (vars w) = None →
  PrimFloat.ltb 0 t = true →
  playback_cycle w t.
Proof.
  intros Hw Hblob Hsize Hel Ht.
  assert (refs_bound (vars w) = true) as Hb by (apply reachable_blob_bound; [done|by eexists]).
  pose proof (play_fresh_exec w b Hb Hblob Hsize (or_introl Hel)) as Hfresh.
  destruct_world w. js_simpl. subst.
  unfold playback_cycle. eexists _, _, _, _, _, (length h_audios).
  split; [done|].
  (* stopped to playing *)
  unfold step at 1. unfold exec. rewrite Hfresh.
  split; [reflexivity|]. unfold playback, position. snoc_simpl.
  do 2 (split; [done|]).
  (* the element plays on to [t] *)
  unfold on_audio. snoc_simpl. split; [reflexivity|].
  (* playing to paused *)
  rewrite (play_pause_exec _ b (length h_audios)
             (mkAudio (length h_urls) false t (Some (length h_urls))))
    by (done || apply lookup_snoc).
  snoc_simpl. split; [reflexivity|]. snoc_simpl. do 3 (split; [done|]).
  (* paused to playing *)
  rewrite (play_resume_exec _ b (length h_audios)
             (mkAudio (length h_urls) true t (Some (length h_urls))))
    by (done || apply lookup_snoc).
  snoc_simpl. split; [reflexivity|]. snoc_simpl. do 3 (split; [done|]).
  (* the natural end *)
  js_unfold. snoc_simpl. split; [reflexivity|]. snoc_simpl. split; [done|].
  intros u Hu. rewrite !length_app in Hu. cbn in Hu.
  replace u with (length h_urls) by lia. by rewrite lookup_snoc.
Qed.

Lemma playback_cycle_mid_play_witness : playback_cycle world_done 1.5%float.
Proof.
  apply (playback_cycle_mid_play world_done clip 1.5%float).
  - apply world_after_reachable.
  - vm_compute. reflexivity.
  - vm_compute. discriminate.
  - vm_compute. reflexivity.
  - vm_compute. reflexivity.
Defined.

(** C8 fails for a pause taken before any of the clip has played: in the
    world after one recording of a non-empty clip, with nothing playing, the
    cycle that pauses at position 0 does not resume the paused element; the
    third toggle makes a second element and a second object URL, and after
    the natural end of that element the first URL is still not revoked. *)
Lemma playback_cycle_paused_at_start_fails :
  reachable world_done ∧
  blob (vars world_done) = Some clip ∧ blob_size clip ≠ 0%N ∧
  playback world_done = stopped ∧
  ¬ playback_cycle world_done 0%float ∧
  (∃ w4, run [CallPlay; AudioProgress 0 0%float; CallPlay; CallPlay] world_done = Some w4 ∧
         audioEl (vars w4) = Some 1 ∧
         audios (host w4) = [mkAudio 0 true 0 (Some 0); mkAudio 1 false 0 (Some 1)]) ∧
  (∃ w5, run [CallPlay; AudioProgress 0 0%float; CallPlay; CallPlay; AudioEnded 1] world_done
           = Some w5 ∧
         playback w5 = stopped ∧
         urls (host w5) = [mkURL clip true; mkURL clip false]).
Proof.
  split; [apply world_after_reachable|].
  split; [vm_compute; reflexivity|].
  split; [vm_compute; discriminate|].
  split; [vm_compute; reflexivity|].
  split.
  - intros (w1 & w2 & w3 & w4 & w5 & e & _ & H1 & _ & He & H2 & H3 & _ & _ & _ & H4 & _ & He4 & _).
    vm_compute in H1. injection H1 as <-.
    vm_compute in He. injection He as <-.
    vm_compute in H2. injection H2 as <-.
    vm_compute in H3. injection H3 as <-.
    vm_compute in H4. injection H4 as <-.
    vm_compute in He4. discriminate.
  - split; eexists; (split; [vm_compute; reflexivity|]; split; vm_compute; reflexivity).
Qed.


(** * More of the script *)

(** ** The recording side *)

Lemma notifications_snoc (es : list Effect) (e : Effect) :
  notifications (es ++ [e]) =
  notifications es ++ match e with StateChange _ s => [s] | _ => [] end.
Proof. unfold notifications. rewrite omap_app. by destruct e. Qed.

Lemma Forall_filter_sub {A} (P Q : A → Prop) `{∀ x, Decision (Q x)} (l : list A) :
  Forall P l → Forall P (filter Q l).
Proof.
  intros Hl. apply Forall_forall. intros x [_ Hx]%list_elem_of_filter.
  by apply (proj1 (Forall_forall _ _) Hl).
Qed.

Lemma granted_stream_open (tracks : nat) (ss : list (list TrackState)) :
  ∃ ts, (ss ++ [replicate tracks live]) !! length ss = Some ts ∧ Forall (λ t, t = live) ts.
Proof.
  exists (replicate tracks live). split; [apply lookup_snoc|].
  apply Forall_replicate. done.
Qed.

(** With no analyser, [draw] throws at once and leaves the world as it is. *)
Lemma draw_null_analyser (c : DrawClosure) (data : list byte) (w : World) :
  analyser (vars w) = None →
  draw c data w = (Throw (TypeError "analyser is null"), w).
Proof. intros Ha. unfold draw, bind, gets. by rewrite Ha. Qed.

Ltac sess_frames :=
  repeat apply Forall_app_2; try apply Forall_filter_sub; try assumption;
  repeat constructor; done.

(** Closing the cases of [session_inv]. *)
Ltac sess_solve :=
  split; unfold open_stream, ui_shows in *; js_simpl;
  rewrite ?notifications_snoc, ?app_nil_r, ?length_paint in *;
  try assumption; try done;
  try (split; [intros [? ?]|intros ?]; simplify_eq; (done || by eexists));
  try (intros ? [= <-]; apply granted_stream_open);
  try sess_frames.

Lemma session_step (ev : Event) (w w' : World) :
  consistent w → session_inv w → step ev w = Some w' → session_inv w'.
Proof.
  intros [H1 H2 H3 H4] [S1 S2 S3 S4 S5 S6 S7 S8 S9 S10] Hstep.
  step_exec ev w w' H1 H2 H3 H4 Hstep.
  - sess_solve.
  - sess_solve.
  - js_cases; sess_solve.
  - js_cases; sess_solve.
  - js_cases; sess_solve.
  - sess_solve.
  - js_cases; sess_solve.
  - (* frame *)
    destruct (list_find _ _) as [[k [id' c]]|] eqn:Hfind; [|done].
    destruct (decide _); [|done]. injection Hstep as <-.
    apply list_find_Some in Hfind as (Hk & Hid & _). cbn in Hid. subst id'.
    assert (c = mkDraw binCount (length (bar_heights (dom w)))) as Hc.
    { rewrite Forall_lookup in S9. apply (S9 k (id, c) Hk). }
    destruct (analyser (vars w)) as [a|] eqn:Han.
    + assert (state (vars w) = recording) as Hrec by (apply S3; by eexists).
      match goal with
      | |- session_inv (snd (draw ?c ?d ?W)) =>
          destruct (draw_cases c d W) as (r & hs & Hlen & ->)
      end.
      destruct_world w. js_unfold. js_simpl. subst.
      destruct r; js_simpl; sess_solve; rewrite Hlen; sess_frames.
    + rewrite draw_null_analyser by (by destruct_world w).
      destruct_world w. js_unfold. js_simpl. subst. sess_solve.
  - sess_solve.
  - js_cases; sess_solve.
  - js_cases; sess_solve.
Qed.

Lemma session_initial (d : Dom) : session_inv (initial d).
Proof.
  split; cbn; try done; try (split; [intros [? ?]|intros ?]; done).
Qed.

Lemma reachable_session (w : World) : reachable w → session_inv w.
Proof.
  induction 1 as [d|ev w w' Hw IH Hstep].
  - apply session_initial.
  - apply (session_step ev w); [by apply reachable_consistent|done|done].
Qed.

(** X1: in every reachable world the microphone stream, the audio context,
    the analyser and the frame identifier are held exactly while the state is
    'recording', and every track of the held stream is live. *)
Theorem resources_held_while_recording (w : World) :
  reachable w →
  (is_Some (stream (vars w)) ↔ state (vars w) = recording) ∧
  (is_Some (audioCtx (vars w)) ↔ state (vars w) = recording) ∧
  (is_Some (analyser (vars w)) ↔ state (vars w) = recording) ∧
  (is_Some (animFrame (vars w)) ↔ state (vars w) = recording) ∧
  (∀ s, stream (vars w) = Some s → open_stream s w).
Proof. intros [S1 S2 S3 S4 S5 _ _ _ _ _]%reachable_session. done. Qed.

Lemma resources_held_while_recording_witness :
  (is_Some (stream (vars world_done)) ↔ state (vars world_done) = recording) ∧
  (is_Some (audioCtx (vars world_done)) ↔ state (vars world_done) = recording) ∧
  (is_Some (analyser (vars world_done)) ↔ state (vars world_done) = recording) ∧
  (is_Some (animFrame (vars world_done)) ↔ state (vars world_done) = recording) ∧
  (∀ s, stream (vars world_done) = Some s → open_stream s world_done).
Proof. apply (resources_held_while_recording world_done). apply world_after_reachable. Defined.

(** X2: in every reachable world, state 'done' means [getBlob] returns a
    blob, and state 'idle' means it returns [null] and [recordRTC] is still
    [null]. *)
Theorem state_tells_blob (w : World) :
  reachable w →
  (state (vars w) = done → is_Some (getBlob w)) ∧
  (state (vars w) = idle → getBlob w = None ∧ recordRTC (vars w) = None).
Proof. intros [_ _ _ _ _ S6 S7 _ _ _]%reachable_session. done. Qed.

Lemma state_tells_blob_witness :
  (state (vars world_done) = done → is_Some (getBlob world_done)) ∧
  (state (vars world_done) = idle →
   getBlob world_done = None ∧ recordRTC (vars world_done) = None).
Proof. apply (state_tells_blob world_done). apply world_after_reachable. Defined.

(** X3: in every reachable world whose state is not 'idle', the document
    shows what [setUI] writes for that state: while recording the button has
    the class 'recording', the label reads "Arrêter l'enregistrement", the
    bars are visible and the done row is hidden; when done the class is gone,
    the label reads "Reenregistrer", the bars are hidden and the done row is
    shown. *)
Theorem ui_follows_state (w : World) :
  reachable w →
  state (vars w) ≠ idle →
  ui_shows (state (vars w)) (dom w).
Proof. intros [_ _ _ _ _ _ _ S8 _ _]%reachable_session. done. Qed.

Lemma ui_follows_state_witness : ui_shows (state (vars world_done)) (dom world_done).
Proof.
  apply (ui_follows_state world_done).
  - apply world_after_reachable.
  - vm_compute. discriminate.
Defined.

(** X4: in every reachable world, [onStateChange] has only ever been called
    with 'recording' or 'done', never with 'idle'. *)
Theorem never_notifies_idle (w : World) :
  reachable w →
  Forall (λ s, s = recording ∨ s = done) (notifications (effects w)).
Proof.
  intros [_ _ _ _ _ _ _ _ _ S10]%reachable_session.
  eapply Forall_impl; [done|]. intros [] Hs; auto. done.
Qed.

Lemma never_notifies_idle_witness :
  Forall (λ s, s = recording ∨ s = done) (notifications (effects world_done)).
Proof. apply (never_notifies_idle world_done). apply world_after_reachable. Defined.

(** X5: from a reachable world, the state after an event is 'recording' when
    the event is the granted microphone, 'done' when it is the stop callback,
    and the state before for every other event: a call of [toggle] or [play]
    never changes the state itself, and once the state has left 'idle' it
    never is 'idle' again. *)
Theorem state_changes_in_continuations (ev : Event) (w w' : World) :
  reachable w →
  step ev w = Some w' →
  state (vars w') = state_after ev (state (vars w)) ∧
  (state (vars w) ≠ idle → state (vars w') ≠ idle).
Proof.
  intros Hw Hstep. destruct (reachable_consistent w Hw) as [H1 H2 H3 H4].
  assert (state (vars w') = state_after ev (state (vars w))) as Hst.
  { step_exec ev w w' H1 H2 H3 H4 Hstep; try (by js_cases).
    destruct (list_find _ _) as [[k [id' c]]|]; [|done].
    destruct (decide _); [|done]. injection Hstep as <-.
    match goal with
    | |- context [snd (draw ?c ?d ?W)] => destruct (draw_cases c d W) as (r & hs & _ & ->)
    end.
    destruct_world w. js_unfold. js_simpl. by destruct r. }
  split; [done|]. rewrite Hst. by destruct ev.
Qed.

Lemma state_changes_in_continuations_witness :
  state (vars world_stopping) = state_after CallToggle (state (vars world_recording)) ∧
  (state (vars world_recording) ≠ idle → state (vars world_stopping) ≠ idle).
Proof.
  apply (state_changes_in_continuations CallToggle world_recording world_stopping).
  - apply world_after_reachable.
  - vm_compute. reflexivity.
Defined.

(** X6: while the state is 'recording' in a reachable world, a frame of the
    visualiser never throws: it reads inside [dataArray] and writes inside
    [bars].  It leaves bar [i] at the height 4 + (m/255) * 48 for the
    magnitude [m] of bin floor(i * 128 / bars.length), a height in [4, 52],
    keeps the number of bars, and schedules the next frame under the
    identifier it stores in [animFrame]. *)
Theorem frame_while_recording (id i : nat) (data : list byte) (w w' : World) :
  reachable w →
  state (vars w) = recording →
  step (AnimationFrame id data) w = Some w' →
  i < length (bar_heights (dom w)) →
  completion (draw (mkDraw binCount (length (bar_heights (dom w)))) data)
    (exec (cancelAnimationFrame id) w) = Normal tt ∧
  length (bar_heights (dom w')) = length (bar_heights (dom w)) ∧
  (∃ m : byte,
     data !! (i * binCount / length (bar_heights (dom w))) = Some m ∧
     bar_heights (dom w') !! i = Some (4 + (byte_to_number m / 255) * 48)%float ∧
     PrimFloat.leb 4 (4 + (byte_to_number m / 255) * 48) = true ∧
     PrimFloat.leb (4 + (byte_to_number m / 255) * 48) 52 = true) ∧
  (∃ f, animFrame (vars w') = Some f ∧ scheduled f w').
Proof.
  intros Hw Hrec Hstep Hi.
  destruct (reachable_consistent w Hw) as [H1 H2 _ _].
  destruct (reachable_session w Hw) as [_ _ _ _ _ _ _ _ S9 _].
  destruct (H2 Hrec) as (_ & _ & _ & Han).
  assert (refs_bound (vars w) = true) as Hb.
  { destruct (refs_bound (vars w)); [done|]. destruct (H1 eq_refl) as (? & _). congruence. }
  cbn [step] in Hstep.
  destruct (list_find _ _) as [[k [id' c]]|] eqn:Hfind; [|done].
  destruct (decide _) as [Hlen|]; [|done]. injection Hstep as <-.
  apply list_find_Some in Hfind as (Hk & _).
  assert (c = mkDraw binCount (length (bar_heights (dom w)))) as ->.
  { rewrite Forall_lookup in S9. apply (S9 k (id', c) Hk). }
  cbn [dataLength] in Hlen.
  destruct (lookup_lt_is_Some_2 data (i * binCount / length (bar_heights (dom w)))) as [m Hm].
  { rewrite Hlen. apply bin_in_range; [done|]. unfold binCount. cbn. lia. }
  pose proof (height_in_range_all m) as Hr. apply andb_true_iff in Hr as [Hlo Hhi].
  clear Hw H1 H2 S9 Hk.
  destruct_world w. js_unfold. js_simpl. subst.
  rewrite draw_exec by (done || (cbn; lia)). js_simpl.
  split; [reflexivity|].
  split; [apply length_paint|].
  split.
  - exists m. split; [done|]. split; [|by split].
    rewrite paint_seq_lookup by lia.
    destruct (decide (i < length d_bars)); [|lia].
    by rewrite Hm.
  - eexists. split; [reflexivity|]. unfold scheduled. js_simpl. apply scheduled_snoc.
Qed.

Lemma frame_while_recording_witness :
  completion (draw (mkDraw binCount (length (bar_heights (dom world_stopping))))
                (replicate binCount xff))
    (exec (cancelAnimationFrame 1) world_stopping) = Normal tt ∧
  length (bar_heights (dom world_stopping_drawn)) = length (bar_heights (dom world_stopping)) ∧
  (∃ m : byte,
     replicate binCount xff !! (2 * binCount / length (bar_heights (dom world_stopping)))
       = Some m ∧
     bar_heights (dom world_stopping_drawn) !! 2
       = Some (4 + (byte_to_number m / 255) * 48)%float ∧
     PrimFloat.leb 4 (4 + (byte_to_number m / 255) * 48) = true ∧
     PrimFloat.leb (4 + (byte_to_number m / 255) * 48) 52 = true) ∧
  (∃ f, animFrame (vars world_stopping_drawn) = Some f ∧ scheduled f world_stopping_drawn).
Proof.
  apply (frame_while_recording 1 2 (replicate binCount xff) world_stopping world_stopping_drawn).
  - apply world_after_reachable.
  - vm_compute. reflexivity.
  - vm_compute. reflexivity.
  - vm_compute. lia.
Defined.

(** ** Recording and playback apart *)

Lemma recording_step_playback (ev : Event) (w w' : World) :
  consistent w → is_recording_event ev ∨ ev = DOMContentLoaded ∨ (∃ cb, ev = SetOnStateChange cb) →
  step ev w = Some w' →
  playback_side w' = playback_side w ∧
  (refs_bound (vars w) = true → refs_bound (vars w') = true).
Proof.
  intros [H1 H2 H3 H4] Hev Hstep.
  step_exec ev w w' H1 H2 H3 H4 Hstep.
  - done.
  - done.
  - js_cases; done.
  - exfalso. destruct Hev as [[]|[?|[? ?]]]; done.
  - js_cases; done.
  - done.
  - js_cases; done.
  - destruct (list_find _ _) as [[k [id' c]]|] eqn:Hfind; [|done].
    destruct (decide _); [|done]. injection Hstep as <-.
    match goal with
    | |- context [draw ?c ?d ?W] => destruct (draw_cases c d W) as (r & hs & _ & Hd)
    end.
    rewrite Hd. clear Hd.
    destruct_world w. js_unfold. js_simpl. by destruct r.
  - exfalso. destruct Hev as [[]|[?|[? ?]]]; done.
  - exfalso. destruct Hev as [[]|[?|[? ?]]]; done.
  - exfalso. destruct Hev as [[]|[?|[? ?]]]; done.
Qed.

(** X7: in a reachable world, no event of recording (a toggle, the grant or
    the refusal of the microphone, the stop callback, a frame of the
    visualiser) touches playback: [audioEl], every audio element, every
    object URL and the play button are as before, and so are the playback
    state and position. *)
Theorem recording_leaves_playback (ev : Event) (w w' : World) :
  reachable w →
  is_recording_event ev →
  step ev w = Some w' →
  playback_side w' = playback_side w ∧
  playback w' = playback w ∧ position w' = position w.
Proof.
  intros Hw Hev Hstep.
  destruct (recording_step_playback ev w w') as [Hs _]; [by apply reachable_consistent|auto|done|].
  split; [done|]. unfold playback, position.
  injection Hs as -> -> _ _. done.
Qed.

Lemma recording_leaves_playback_witness :
  playback_side world_stopping = playback_side world_recording ∧
  playback world_stopping = playback world_recording ∧
  position world_stopping = position world_recording.
Proof.
  apply (recording_leaves_playback CallToggle world_recording world_stopping).
  - apply world_after_reachable.
  - exact I.
  - vm_compute. reflexivity.
Defined.

Lemma playback_step_recording (ev : Event) (w w' : World) :
  is_playback_event ev →
  step ev w = Some w' →
  recording_side w' = recording_side w.
Proof.
  intros Hev Hstep. destruct ev; try done; cbn [step] in Hstep.
  - injection Hstep as <-. destruct_world w. js_unfold. js_simpl.
    unfold recording_side. js_cases; rewrite ?notifications_snoc, ?app_nil_r; done.
  - destruct (audios (host w) !! e) as [a|] eqn:Ha; [|done].
    destruct (au_paused a); [done|]. injection Hstep as <-.
    destruct_world w. done.
  - destruct (audios (host w) !! e) as [a|] eqn:Ha; [|done].
    destruct (au_paused a); [done|].
    destruct (au_onended a); injection Hstep as <-; destruct_world w;
      js_unfold; js_simpl; unfold recording_side; js_cases; done.
Qed.

(** X8: no event of playback (a call of [play], a progress report or the end
    of an element) touches recording, in any world: the state, the blob, the
    recorder, the stream, the audio graph, the schedule of frames, the
    pending continuations, the microphone button, its label, the bars, the
    done row and the calls of [onStateChange] are as before. *)
Theorem playback_leaves_recording (ev : Event) (w w' : World) :
  is_playback_event ev →
  step ev w = Some w' →
  recording_side w' = recording_side w ∧ getBlob w' = getBlob w.
Proof.
  intros Hev Hstep. pose proof (playback_step_recording ev w w' Hev Hstep) as Hs.
  split; [done|]. unfold getBlob. by injection Hs.
Qed.

Lemma playback_leaves_recording_witness :
  recording_side (exec play world_done) = recording_side world_done ∧
  getBlob (exec play world_done) = getBlob world_done.
Proof.
  apply (playback_leaves_recording CallPlay world_done (exec play world_done)).
  - exact I.
  - reflexivity.
Defined.

(** ** The playback side *)

Lemma playback_inv_transfer (w w' : World) :
  playback_inv w →
  playback_side w' = playback_side w →
  (refs_bound (vars w) = true → refs_bound (vars w') = true) →
  playback_inv w'.
Proof.
  intros [P1 P2 P3 P4 P5] Hs Hb. injection Hs as He Ha Hu Hp.
  split; rewrite ?He, ?Ha, ?Hu, ?Hp; try done.
  intros Hb'. apply P5. destruct (refs_bound (vars w)); [|done].
  rewrite Hb in Hb'; done.
Qed.

Lemma playback_initial (d : Dom) : playback_inv (initial d).
Proof. split; cbn; done. Qed.

(** Reading an element after an update of element [e] that keeps the URL and
    the handler. *)
Lemma lookup_alter_audio (f : AudioObj → AudioObj) (e e' : nat) (l : list AudioObj)
    (a' : AudioObj) :
  alter f e l !! e' = Some a' →
  (e' = e ∧ ∃ a, l !! e = Some a ∧ a' = f a) ∨ (e' ≠ e ∧ l !! e' = Some a').
Proof.
  rewrite list_lookup_alter. destruct (decide (e = e')) as [->|Hne].
  - intros (a & Ha & ->)%fmap_Some. left. eauto.
  - intros Ha. right. split; [congruence|done].
Qed.

Lemma play_alert_exec (w : World) :
  (blob (vars w) = None ∨ ∃ b, blob (vars w) = Some b ∧ blob_size b = 0%N) →
  play w = (Normal tt, emit (Alert "Aucun enregistrement trouvé.") w).
Proof.
  intros Hb. destruct_world w. js_simpl. js_unfold. js_simpl.
  destruct Hb as [->|(b & -> & Hs)]; [done|].
  js_simpl. by rewrite Hs.
Qed.

(** Changing the current element in place, with the button to match. *)
Lemma update_current_inv (w : World) (e : nat) (f : AudioObj → AudioObj) (text : string) :
  playback_inv w →
  audioEl (vars w) = Some e →
  (∀ a, au_src (f a) = au_src a ∧ au_onended (f a) = au_onended a) →
  (∀ a, audios (host w) !! e = Some a → text = if au_paused (f a) then "▶" else "⏸") →
  playback_inv
    (on_dom (set_playBtn_text text) (on_host (λ h, set_audios (alter f e (audios h)) h) w)).
Proof.
  intros [P1 P2 P3 P4 P5] He Hf Ht. destruct_world w. js_simpl. subst. split; js_simpl.
  - intros ? [= <-]. destruct (P1 e eq_refl) as (a & o & Ha & Ho & Hl).
    exists (f a), o. rewrite list_lookup_alter_eq, Ha. destruct (Hf a) as [-> _]. done.
  - intros e' a' [[-> _]|[_ Ha']]%lookup_alter_audio Hp; [done|]. by apply (P2 e' a').
  - intros e' a' [[-> (a & Ha & ->)]|[_ Ha']]%lookup_alter_audio; [|by apply (P3 e' a')].
    destruct (Hf a) as [-> ->]. by apply (P3 e a).
  - intros ? a' [= <-] [[_ (a & Ha & ->)]|[? _]]%lookup_alter_audio; [|done].
    by apply Ht.
  - intros Hb. rewrite (P5 Hb). done.
Qed.

(** A fresh play when nothing is playing. *)
Lemma fresh_play_inv (w : World) (b : Blob) :
  playback_inv w →
  refs_bound (vars w) = true →
  (audioEl (vars w) = None ∨
   ∃ e a, audioEl (vars w) = Some e ∧ audios (host w) !! e = Some a ∧ au_paused a = true) →
  playback_inv
    (on_dom (set_playBtn_text "⏸")
       (on_vars (set_audioEl (Some (length (audios (host w)))))
          (on_host (λ h, set_audios
                           (audios h ++ [mkAudio (length (urls h)) false 0 (Some (length (urls h)))])
                           (set_urls (urls h ++ [mkURL b true]) h)) w))).
Proof.
  intros [P1 P2 P3 P4 P5] Hb Hel. destruct_world w. js_simpl. subst. split; js_simpl.
  - intros ? [= <-]. eexists _, _. split; [apply lookup_snoc|]. cbn.
    split; [apply lookup_snoc|done].
  - intros e' a' Ha' Hp. f_equal.
    destruct (decide (e' < length h_audios)) as [Hlt|Hge].
    + exfalso. rewrite lookup_app_l in Ha' by done.
      pose proof (P2 e' a' Ha' Hp) as He.
      destruct Hel as [->|(e & a & -> & Ha & Hpa)]; [done|].
      simplify_eq. congruence.
    + apply lookup_lt_Some in Ha'. rewrite length_app in Ha'. cbn in Ha'. lia.
  - intros e' a' Ha'.
    destruct (decide (e' < length h_audios)) as [Hlt|Hge].
    + rewrite lookup_app_l in Ha' by done. by apply (P3 e' a').
    + assert (e' = length h_audios) as ->.
      { apply lookup_lt_Some in Ha'. rewrite length_app in Ha'. cbn in Ha'. lia. }
      rewrite lookup_snoc in Ha'. by simplify_eq.
  - intros ? a' [= <-]. rewrite lookup_snoc. by intros [= <-].
  - done.
Qed.

(** The end of the current element: paused by the browser, then [onended]. *)
Lemma ended_inv (w : World) (e : nat) (a : AudioObj) :
  playback_inv w →
  audios (host w) !! e = Some a → au_paused a = false →
  refs_bound (vars w) = true ∧
  au_onended a = Some (au_src a) ∧
  completion (onended (au_src a)) (exec (audio_pause e) w) = Normal tt ∧
  playback_inv (exec (onended (au_src a)) (exec (audio_pause e) w)) ∧
  audioEl (vars (exec (onended (au_src a)) (exec (audio_pause e) w))) = None ∧
  url_live <$> urls (host (exec (onended (au_src a)) (exec (audio_pause e) w))) !! au_src a
    = Some false.
Proof.
  intros [P1 P2 P3 P4 P5] Ha Hp.
  pose proof (P2 e a Ha Hp) as He.
  destruct (P1 e He) as (a0 & o & Ha0 & Ho & Hl).
  assert (a0 = a) as -> by congruence.
  pose proof (P3 e a Ha) as Hh.
  assert (refs_bound (vars w) = true) as Hb.
  { destruct (refs_bound (vars w)); [done|]. rewrite (P5 eq_refl) in Ha. done. }
  destruct_world w. js_simpl. subst. js_unfold. js_simpl.
  split; [done|]. split; [done|]. split; [done|]. split; [split; js_simpl|].
  - done.
  - intros e' a' [[-> (a1 & _ & ->)]|[Hne Ha']]%lookup_alter_audio Hp'; [done|].
    pose proof (P2 e' a' Ha' Hp'). congruence.
  - intros e' a' [[-> (a1 & Ha1 & ->)]|[_ Ha']]%lookup_alter_audio; [|by apply (P3 e' a')].
    by apply (P3 e a1).
  - done.
  - done.
  - split; [done|]. rewrite list_lookup_alter_eq, Ho. done.
Qed.

Lemma playback_step (ev : Event) (w w' : World) :
  consistent w → playback_inv w → step ev w = Some w' → playback_inv w'.
Proof.
  intros Hc Hp Hstep.
  assert (is_recording_event ev ∨ ev = DOMContentLoaded ∨ (∃ cb, ev = SetOnStateChange cb) →
          playback_inv w') as Hrec.
  { intros Hev. destruct (recording_step_playback ev w w' Hc Hev Hstep) as [Hs Hb].
    by apply (playback_inv_transfer w). }
  destruct ev; try (apply Hrec; cbn; eauto; fail); clear Hrec; cbn [step] in Hstep.
  - (* play *)
    injection Hstep as <-. unfold exec.
    destruct (blob (vars w)) as [b|] eqn:Hblob;
      [destruct (decide (blob_size b = 0%N)) as [Hs|Hs]|].
    + rewrite play_alert_exec by eauto. by apply (playback_inv_transfer w).
    + assert (refs_bound (vars w) = true) as Hb.
      { destruct Hc as [H1 _ _ _]. destruct (refs_bound (vars w)); [done|].
        destruct (H1 eq_refl) as (_ & ? & _). congruence. }
      destruct (audioEl (vars w)) as [e|] eqn:He.
      * destruct (current_valid w Hp e He) as (a & o & Ha & _).
        destruct (au_paused a) eqn:Hpa; [destruct (PrimFloat.ltb 0 (au_time a)) eqn:Ht|].
        -- rewrite (play_resume_exec w b e a) by done.
           apply update_current_inv; [done..|].
           intros a' Ha'. done.
        -- rewrite (play_fresh_exec w b) by eauto 10.
           apply fresh_play_inv; eauto 10.
        -- rewrite (play_pause_exec w b e a) by done.
           apply update_current_inv; [done..|].
           intros a' Ha'. done.
      * rewrite (play_fresh_exec w b) by eauto.
        apply fresh_play_inv; eauto.
    + rewrite play_alert_exec by eauto. by apply (playback_inv_transfer w).
  - (* progress *)
    destruct (audios (host w) !! e) as [a|] eqn:Ha; [|done].
    destruct (au_paused a) eqn:Hpa; [done|]. injection Hstep as <-.
    pose proof (others_paused w Hp e a Ha Hpa) as He.
    pose proof (button_shows w Hp e a He Ha) as Hbtn.
    pose proof (update_current_inv w e (λ a, mkAudio (au_src a) (au_paused a) t (au_onended a))
                  (playBtn_text (dom w)) Hp He) as Hu.
    destruct_world w. apply Hu; [done|].
    intros a' Ha'. js_simpl. by simplify_eq.
  - (* ended *)
    destruct (audios (host w) !! e) as [a|] eqn:Ha; [|done].
    destruct (au_paused a) eqn:Hpa; [done|].
    destruct (ended_inv w e a Hp Ha Hpa) as (_ & Hh & _ & Hi & _).
    rewrite Hh in Hstep. by injection Hstep as <-.
Qed.

Lemma reachable_playback (w : World) : reachable w → playback_inv w.
Proof.
  induction 1 as [d|ev w w' Hw IH Hstep].
  - apply playback_initial.
  - apply (playback_step ev w); [by apply reachable_consistent|done|done].
Qed.

Lemma reachable_bound (w : World) :
  reachable w → is_Some (blob (vars w)) ∨ audios (host w) ≠ [] → refs_bound (vars w) = true.
Proof.
  intros Hw Hor. destruct (refs_bound (vars w)) eqn:Hb; [done|]. exfalso.
  destruct (reachable_consistent w Hw) as [H1 _ _ _].
  destruct (reachable_playback w Hw) as [_ _ _ _ P5].
  destruct (H1 Hb) as (_ & Hblob & _). destruct Hor as [[b Hsome]|Hne].
  - congruence.
  - by apply Hne, P5.
Qed.

Lemma playback_playing (w : World) :
  playback w = playing ↔
  ∃ e a, audioEl (vars w) = Some e ∧ audios (host w) !! e = Some a ∧ au_paused a = false.
Proof.
  unfold playback. split.
  - destruct (audioEl (vars w)) as [e|]; [|done].
    destruct (audios (host w) !! e) as [a|] eqn:Ha; [|done].
    destruct (au_paused a) eqn:Hp; [done|]. eauto.
  - intros (e & a & -> & -> & ->). done.
Qed.

Lemma alter_alter_restore {A} (f g : A → A) (i : nat) (l : list A) (a : A) :
  l !! i = Some a → g (f a) = a → alter g i (alter f i l) = l.
Proof.
  intros Hl Hgf. apply list_eq. intros j.
  destruct (decide (i = j)) as [<-|Hne].
  - rewrite !list_lookup_alter_eq, Hl. cbn. by rewrite Hgf.
  - by rewrite !list_lookup_alter_ne.
Qed.

(** X9: in every reachable world at most one audio element is playing, and
    it is the one in [audioEl]: every element that is not paused is the
    current one, so playback is then in state playing. *)
Theorem playing_element_is_current (w : World) (e : nat) (a : AudioObj) :
  reachable w →
  audios (host w) !! e = Some a →
  au_paused a = false →
  audioEl (vars w) = Some e ∧ playback w = playing.
Proof.
  intros [_ P2 _ _ _]%reachable_playback Ha Hp.
  pose proof (P2 e a Ha Hp) as He. split; [done|].
  apply playback_playing. eauto.
Qed.

Lemma playing_element_is_current_witness :
  audioEl (vars world_playing_mid) = Some 0 ∧ playback world_playing_mid = playing.
Proof.
  apply (playing_element_is_current world_playing_mid 0 (mkAudio 0 false 2.5%float (Some 0))).
  - apply world_after_reachable.
  - vm_compute. reflexivity.
  - reflexivity.
Defined.

(** X10: in every reachable world the play button agrees with playback: it
    shows the pause glyph while the current element plays and the play glyph
    while it is paused. *)
Theorem play_button_follows_playback (w : World) :
  reachable w →
  (playback w = playing → playBtn_text (dom w) = "⏸") ∧
  (playback w = paused → playBtn_text (dom w) = "▶").
Proof.
  intros [_ _ _ P4 _]%reachable_playback. unfold playback.
  destruct (audioEl (vars w)) as [e|]; [|done].
  destruct (audios (host w) !! e) as [a|] eqn:Ha; [|done].
  rewrite (P4 e a eq_refl Ha). by destruct (au_paused a).
Qed.

Lemma play_button_follows_playback_witness :
  (playback world_paused_at_start = playing →
   playBtn_text (dom world_paused_at_start) = "⏸") ∧
  (playback world_paused_at_start = paused →
   playBtn_text (dom world_paused_at_start) = "▶").
Proof.
  apply (play_button_follows_playback world_paused_at_start). apply world_after_reachable.
Defined.

(** X11: in every reachable world the element in [audioEl] exists, the
    object URL it plays has not been revoked, and its [onended] handler is
    the one that revokes that same URL. *)
Theorem current_clip_not_revoked (w : World) (e : nat) :
  reachable w →
  audioEl (vars w) = Some e →
  ∃ a o, audios (host w) !! e = Some a ∧
         urls (host w) !! au_src a = Some o ∧ url_live o = true ∧
         au_onended a = Some (au_src a).
Proof.
  intros [P1 _ P3 _ _]%reachable_playback He.
  destruct (P1 e He) as (a & o & Ha & Ho & Hl).
  exists a, o. repeat split; try done. by apply (P3 e).
Qed.

Lemma current_clip_not_revoked_witness :
  ∃ a o, audios (host world_paused_at_start) !! 0 = Some a ∧
         urls (host world_paused_at_start) !! au_src a = Some o ∧ url_live o = true ∧
         au_onended a = Some (au_src a).
Proof.
  apply (current_clip_not_revoked world_paused_at_start 0).
  - apply world_after_reachable.
  - vm_compute. reflexivity.
Defined.

(** X12: in a reachable world neither [Recorder.toggle()], up to the point
    where it hands over to [stopRecording] or awaits [getUserMedia], nor
    [Recorder.play()] throws: whatever calls and callbacks came before,
    [recordRTC] is set when [toggle] stops it, and [playBtn] and the element
    in [audioEl] exist when [play] uses them. *)
Theorem api_never_throws (w : World) :
  reachable w →
  completion toggle w = Normal tt ∧ completion play w = Normal tt.
Proof.
  intros Hw. split; unfold completion.
  - destruct (decide (state (vars w) = recording)) as [Hrec|Hrec].
    + destruct (reachable_consistent w Hw) as [_ H2 _ _].
      destruct (H2 Hrec) as ([r Hr] & _).
      by rewrite (toggle_stop_exec w r).
    + by rewrite toggle_start_exec.
  - destruct (blob (vars w)) as [b|] eqn:Hblob;
      [destruct (decide (blob_size b = 0%N)) as [Hs|Hs]|].
    + rewrite play_alert_exec by eauto. done.
    + assert (refs_bound (vars w) = true) as Hb by (apply reachable_bound; eauto).
      destruct (audioEl (vars w)) as [e|] eqn:He.
      * destruct (current_valid w (reachable_playback w Hw) e He) as (a & o & Ha & _).
        destruct (au_paused a) eqn:Hpa; [destruct (PrimFloat.ltb 0 (au_time a)) eqn:Ht|].
        -- by rewrite (play_resume_exec w b e a).
        -- rewrite (play_fresh_exec w b) by eauto 10. done.
        -- by rewrite (play_pause_exec w b e a).
      * rewrite (play_fresh_exec w b) by eauto. done.
    + rewrite play_alert_exec by eauto. done.
Qed.

Lemma api_never_throws_witness :
  completion toggle world_paused_at_start = Normal tt ∧
  completion play world_paused_at_start = Normal tt.
Proof. apply (api_never_throws world_paused_at_start). apply world_after_reachable. Defined.

(** X13: pause then resume is a round trip.  In a reachable world with a
    non-empty blob whose element is playing at a position after 0, a call of
    [play] pauses at that position and a second call brings back the very
    same world: same element, same position, same button, no new element
    and no new object URL. *)
Theorem pause_resume_round_trip (w : World) (b : Blob) (t : float) :
  reachable w →
  blob (vars w) = Some b → blob_size b ≠ 0%N →
  playback w = playing →
  position w = Some t → PrimFloat.ltb 0 t = true →
  playback (exec play w) = paused ∧
  position (exec play w) = Some t ∧
  exec play (exec play w) = w.
Proof.
  intros Hw Hblob Hs Hplay Hpos Ht.
  apply playback_playing in Hplay as (e & a & He & Ha & Hp).
  assert (refs_bound (vars w) = true) as Hb by (apply reachable_bound; eauto).
  destruct (reachable_playback w Hw) as [_ _ _ P4 _].
  pose proof (P4 e a He Ha) as Hbtn. rewrite Hp in Hbtn.
  unfold position in Hpos. rewrite He in Hpos. cbn in Hpos. rewrite Ha in Hpos.
  injection Hpos as <-.
  unfold exec. rewrite (play_pause_exec w b e a) by done. cbn [snd].
  rewrite (play_resume_exec _ b e (mkAudio (au_src a) true (au_time a) (au_onended a))).
  - destruct_world w. js_simpl. subst. unfold playback, position. js_simpl.
    rewrite list_lookup_alter_eq, Ha. js_simpl. split; [done|]. split; [done|].
    rewrite (alter_alter_restore _ _ e h_audios a); [done|done|by destruct a; js_simpl; subst].
  - by destruct_world w.
  - by destruct_world w.
  - done.
  - by destruct_world w.
  - destruct_world w. js_simpl. by rewrite list_lookup_alter_eq, Ha.
  - done.
  - done.
Qed.

Lemma pause_resume_round_trip_witness :
  playback (exec play world_playing_mid) = paused ∧
  position (exec play world_playing_mid) = Some 2.5%float ∧
  exec play (exec play world_playing_mid) = world_playing_mid.
Proof.
  apply (pause_resume_round_trip world_playing_mid clip 2.5%float).
  - apply world_after_reachable.
  - vm_compute. reflexivity.
  - vm_compute. discriminate.
  - vm_compute. reflexivity.
  - vm_compute. reflexivity.
  - vm_compute. reflexivity.
Defined.

(** X14: when an element ends in a reachable world, it is the current one;
    its [onended] handler does not throw; afterwards [audioEl] is [null],
    playback is stopped, the button shows the play glyph, the element's
    object URL is revoked and no element is left playing. *)
Theorem ended_releases_clip (w w' : World) (e : nat) :
  reachable w →
  step (AudioEnded e) w = Some w' →
  audioEl (vars w) = Some e ∧
  (∃ a, audios (host w) !! e = Some a ∧
        completion (onended (au_src a)) (exec (audio_pause e) w) = Normal tt ∧
        url_live <$> urls (host w') !! au_src a = Some false) ∧
  audioEl (vars w') = None ∧
  playback w' = stopped ∧
  playBtn_text (dom w') = "▶" ∧
  Forall (λ a, au_paused a = true) (audios (host w')).
Proof.
  intros Hw Hstep. cbn [step] in Hstep.
  destruct (audios (host w) !! e) as [a|] eqn:Ha; [|done].
  destruct (au_paused a) eqn:Hpa; [done|].
  pose proof (reachable_playback w Hw) as Hp.
  destruct (ended_inv w e a Hp Ha Hpa) as (Hb & Hh & Hc & Hi & Hel & Hu).
  rewrite Hh in Hstep. apply (inj Some) in Hstep. subst w'.
  split; [by apply (others_paused w Hp e a)|].
  split; [by eauto|]. split; [done|].
  split; [unfold playback; by rewrite Hel|].
  split.
  - clear Hi Hc Hel Hu. destruct_world w. js_simpl. subst. js_unfold. js_simpl. done.
  - apply Forall_lookup. intros e' a' Ha'.
    destruct (au_paused a') eqn:Hpa'; [done|].
    pose proof (others_paused _ Hi e' a' Ha' Hpa'). congruence.
Qed.

Lemma ended_releases_clip_witness :
  audioEl (vars world_playing_mid) = Some 0 ∧
  (∃ a, audios (host world_playing_mid) !! 0 = Some a ∧
        completion (onended (au_src a)) (exec (audio_pause 0) world_playing_mid) = Normal tt ∧
        url_live <$> urls (host world_ended) !! au_src a = Some false) ∧
  audioEl (vars world_ended) = None ∧
  playback world_ended = stopped ∧
  playBtn_text (dom world_ended) = "▶" ∧
  Forall (λ a, au_paused a = true) (audios (host world_ended)).
Proof.
  apply (ended_releases_clip world_playing_mid world_ended 0).
  - apply world_after_reachable.
  - vm_compute. reflexivity.
Defined.

(** ** The visualiser outside a recording *)

(** X15: a frame that runs in a reachable world whose state is not
    'recording' (a frame left over from a visualiser that was started twice)
    throws a TypeError at [analyser.getByteFrequencyData], because [analyser]
    is [null]: it writes no bar, schedules no further frame and leaves
    [animFrame] [null], so that loop ends there. *)
Theorem stale_frame_throws (id : nat) (data : list byte) (w w' : World) :
  reachable w →
  state (vars w) ≠ recording →
  step (AnimationFrame id data) w = Some w' →
  completion (draw (mkDraw binCount (length (bar_heights (dom w)))) data)
    (exec (cancelAnimationFrame id) w) = Throw (TypeError "analyser is null") ∧
  w' = exec (cancelAnimationFrame id) w ∧
  ¬ scheduled id w' ∧
  bar_heights (dom w') = bar_heights (dom w) ∧
  animFrame (vars w') = None.
Proof.
  intros Hw Hrec Hstep.
  destruct (reachable_session w Hw) as [_ _ S3 S4 _ _ _ _ S9 _].
  assert (analyser (vars w) = None) as Han.
  { destruct (analyser (vars w)) eqn:Ha; [|done]. exfalso. apply Hrec, S3. by eexists. }
  assert (animFrame (vars w) = None) as Hf.
  { destruct (animFrame (vars w)) eqn:Ha; [|done]. exfalso. apply Hrec, S4. by eexists. }
  cbn [step] in Hstep.
  destruct (list_find _ _) as [[k [id' c]]|] eqn:Hfind; [|done].
  destruct (decide _); [|done]. apply (inj Some) in Hstep. subst w'.
  apply list_find_Some in Hfind as (Hk & _).
  assert (c = mkDraw binCount (length (bar_heights (dom w)))) as ->.
  { rewrite Forall_lookup in S9. apply (S9 k (id', c) Hk). }
  set (w0 := exec (cancelAnimationFrame id) w).
  assert (draw (mkDraw binCount (length (bar_heights (dom w)))) data w0
          = (Throw (TypeError "analyser is null"), w0)) as Hd.
  { apply draw_null_analyser. subst w0. by destruct_world w. }
  unfold completion, exec. rewrite Hd. cbn [fst snd]. subst w0.
  split; [done|]. split; [done|].
  split; [|by destruct_world w].
  destruct_world w. unfold scheduled. js_unfold. js_simpl. apply cancelled_not_scheduled.
Qed.

Lemma stale_frame_throws_witness :
  completion (draw (mkDraw binCount (length (bar_heights (dom world_stale_frame))))
                (replicate binCount xff))
    (exec (cancelAnimationFrame 1) world_stale_frame) = Throw (TypeError "analyser is null") ∧
  world_stale_frame_run = exec (cancelAnimationFrame 1) world_stale_frame ∧
  ¬ scheduled 1 world_stale_frame_run ∧
  bar_heights (dom world_stale_frame_run) = bar_heights (dom world_stale_frame) ∧
  animFrame (vars world_stale_frame_run) = None.
Proof.
  apply (stale_frame_throws 1 (replicate binCount xff) world_stale_frame).
  - apply world_after_reachable.
  - vm_compute. discriminate.
  - vm_compute. reflexivity.
Defined.

Lemma paint_constant (x : float) (hs : list float) :
  paint (λ _, x) (seq 0 (length hs)) hs = replicate (length hs) x.
Proof.
  apply list_eq. intros i. rewrite paint_seq_lookup by done.
  destruct (decide (i < length hs)) as [Hi|Hi].
  - symmetry. by apply lookup_replicate_2.
  - rewrite !lookup_ge_None_2; [done| |lia]. rewrite length_replicate. lia.
Qed.

(** X16: once the references are bound, [stopVisualiser] never throws,
    whatever it finds in [animFrame], [audioCtx] and [analyser]; it leaves
    the three [null] and every bar at 4px, keeps the number of bars, and a
    second call changes nothing more. *)
Theorem stopVisualiser_idempotent (w : World) :
  refs_bound (vars w) = true →
  completion stopVisualiser w = Normal tt ∧
  animFrame (vars (exec stopVisualiser w)) = None ∧
  audioCtx (vars (exec stopVisualiser w)) = None ∧
  analyser (vars (exec stopVisualiser w)) = None ∧
  bar_heights (dom (exec stopVisualiser w)) = replicate (length (bar_heights (dom w))) 4%float ∧
  exec stopVisualiser (exec stopVisualiser w) = exec stopVisualiser w.
Proof.
  intros Hb. unfold completion, exec. rewrite (stopVisualiser_exec w Hb). cbn [fst snd].
  rewrite stopVisualiser_exec by (by destruct_world w).
  destruct_world w. unfold visualiser_stopped. js_simpl.
  rewrite !paint_constant, length_replicate.
  repeat split; done.
Qed.

Lemma stopVisualiser_idempotent_witness :
  completion stopVisualiser world_recording = Normal tt ∧
  animFrame (vars (exec stopVisualiser world_recording)) = None ∧
  audioCtx (vars (exec stopVisualiser world_recording)) = None ∧
  analyser (vars (exec stopVisualiser world_recording)) = None ∧
  bar_heights (dom (exec stopVisualiser world_recording))
    = replicate (length (bar_heights (dom world_recording))) 4%float ∧
  exec stopVisualiser (exec stopVisualiser world_recording)
    = exec stopVisualiser world_recording.
Proof. apply (stopVisualiser_idempotent world_recording). vm_compute. reflexivity. Defined.

(** ** A stream that is no longer in [stream] *)

Lemma orphan_step (ev : Event) (w w' : World) (s : nat) (ts : list TrackState) :
  consistent w →
  streams (host w) !! s = Some ts → stream (vars w) ≠ Some s →
  step ev w = Some w' →
  streams (host w') !! s = Some ts ∧ stream (vars w') ≠ Some s.
Proof.
  intros Hc Hs Hne Hstep.
  assert (is_playback_event ev → streams (host w') !! s = Some ts ∧ stream (vars w') ≠ Some s)
    as Hplay.
  { intros Hev. pose proof (playback_step_recording ev w w' Hev Hstep) as Hr.
    pose proof (f_equal rs_vars Hr) as Hv. pose proof (f_equal rs_host Hr) as Hh.
    cbn in Hv, Hh. injection Hv. injection Hh. intros. split; congruence. }
  destruct Hc as [H1 H2 H3 H4].
  pose proof (lookup_lt_Some _ _ _ Hs) as Hlt.
  step_exec ev w w' H1 H2 H3 H4 Hstep; try (by apply Hplay); clear Hplay.
  - done.
  - done.
  - js_cases; done.
  - js_cases; (split; [by rewrite lookup_app_l|]); intros [= <-]; lia.
  - done.
  - js_cases; split; try done; (rewrite list_lookup_alter_ne; [done|congruence]).
  - destruct (list_find _ _) as [[k [id' c]]|] eqn:Hfind; [|done].
    destruct (decide _); [|done]. injection Hstep as <-.
    match goal with
    | |- context [draw ?c ?d ?W] => destruct (draw_cases c d W) as (r & hs & _ & Hd)
    end.
    rewrite Hd. clear Hd.
    destruct_world w. js_unfold. js_simpl. by destruct r.
Qed.

(** X17: the script only ever stops the tracks of the stream in [stream].
    In a reachable world, a stream that is not the one in [stream] (the first
    of two streams granted to two calls of [toggle] made in a row, or a
    stream already released) keeps its tracks exactly as they are through
    any further events, and never becomes the current stream again: a live
    one stays live, the microphone is never released. *)
Theorem orphan_stream_kept (evs : list Event) (w w' : World) (s : nat)
    (ts : list TrackState) :
  reachable w →
  streams (host w) !! s = Some ts →
  stream (vars w) ≠ Some s →
  run evs w = Some w' →
  streams (host w') !! s = Some ts ∧ stream (vars w') ≠ Some s.
Proof.
  revert w. induction evs as [|ev evs IH]; intros w Hw Hs Hne Hrun; cbn in Hrun.
  - by injection Hrun as <-.
  - destruct (step ev w) as [w1|] eqn:Hstep; [|done].
    destruct (orphan_step ev w w1 s ts) as [Hs1 Hne1]; [by apply reachable_consistent|done..|].
    apply (IH w1); [by eapply reachable_step|done..].
Qed.

Lemma orphan_stream_kept_witness :
  streams (host world_stale_frame) !! 0 = Some [live] ∧
  stream (vars world_stale_frame) ≠ Some 0.
Proof.
  apply (orphan_stream_kept [CallToggle; EncoderStopped clip] world_double_start
           world_stale_frame 0 [live]).
  - apply world_after_reachable.
  - vm_compute. reflexivity.
  - vm_compute. discriminate.
  - vm_compute. reflexivity.
Defined.
